(** * Partnership tax engine: waterfall, allocation solver, compliance checks

    A shallow embedding of [backend/app/utils/tax_calculations.py] and of the
    calculation methods of [backend/app/services/capital_account_manager.py],
    together with the properties of the engine specification that concern
    them.

    Amounts are Python [decimal.Decimal] values.  They are modelled as the
    library stores them, a signed coefficient and a decimal exponent, under
    the default context (28 significant digits, ROUND_HALF_EVEN, traps on
    InvalidOperation, DivisionByZero and Overflow).  Not modelled: the sign
    of zero, NaN and infinities, and the exponent limits of the context
    (Emax = 999999, Emin = -999999): the operations below are Python's as
    long as no result leaves that range, where Python raises Overflow or
    rounds to a subnormal.  Where a property asserts that sums, products
    or quotients of arbitrary amounts are computed, the amounts are
    therefore taken in whole cents within [money_limit], for which every
    intermediate value stays far inside the range; other properties say
    what a result is when there is one, or which exception cannot occur. *)

From Stdlib Require Import ZArith List String Bool Lia.
Import ListNotations.
Local Open Scope string_scope.
Local Open Scope list_scope.
Local Open Scope Z_scope.

(** ** Exceptions raised by the decimal library *)

Inductive exn : Type :=
| InvalidOperation
| DivisionByZero.

Inductive result (A : Type) : Type :=
| Ok (a : A)
| Raise (e : exn).

Arguments Ok {A} a.
Arguments Raise {A} e.

Definition bind {A B : Type} (m : result A) (f : A -> result B) : result B :=
  match m with
  | Ok a => f a
  | Raise e => Raise e
  end.

Notation "x <- m ;; k" := (bind m (fun x => k))
  (at level 61, m at next level, right associativity).

Fixpoint mapM {A B : Type} (f : A -> result B) (l : list A) : result (list B) :=
  match l with
  | [] => Ok []
  | a :: l' => b <- f a ;; bs <- mapM f l' ;; Ok (b :: bs)
  end.

(** ** decimal.Decimal *)

Module Dec.

Record Decimal : Type := mkDec { coef : Z; dexp : Z }.

(** Context precision, [getcontext().prec]. *)
Definition prec : Z := 28.

Inductive rounding : Type :=
| ROUND_HALF_UP
| ROUND_HALF_EVEN.

(** [len(str(n))] for a non-negative coefficient [n]. *)
Fixpoint ndigits_aux (fuel : nat) (n : Z) : Z :=
  match fuel with
  | O => 1
  | S fuel' => if n <? 10 then 1 else 1 + ndigits_aux fuel' (n / 10)
  end.

Definition ndigits (n : Z) : Z := ndigits_aux (S (Z.to_nat (Z.log2 n))) n.

(** Drop the [k] low digits of coefficient [c] (k >= 1), rounding the
    magnitude to nearest; ties go away from zero (ROUND_HALF_UP) or to the
    even neighbour (ROUND_HALF_EVEN). *)
Definition round_drop (mode : rounding) (c k : Z) : Z :=
  let p := 10 ^ k in
  let a := Z.abs c in
  let q := a / p in
  let r := a mod p in
  let up := match mode with
            | ROUND_HALF_UP => p <=? 2 * r
            | ROUND_HALF_EVEN => (p <? 2 * r) || ((p =? 2 * r) && Z.odd q)
            end in
  Z.sgn c * (if up then q + 1 else q).

(** [Decimal._fix]: round a result to the context precision. *)
Definition fix_ctx (d : Decimal) : Decimal :=
  let n := ndigits (Z.abs (coef d)) in
  if n <=? prec then d
  else
    let k := n - prec in
    let c := round_drop ROUND_HALF_EVEN (coef d) k in
    if Z.abs c =? 10 ^ prec
    then mkDec (c / 10) (dexp d + k + 1)
    else mkDec c (dexp d + k).

Definition zero : Decimal := mkDec 0 0.
Definition one_cent : Decimal := mkDec 1 (-2).
Definition hundred : Decimal := mkDec 100 0.

(** Coefficient of [d] written at exponent [e <= dexp d]. *)
Definition align (d : Decimal) (e : Z) : Z := coef d * 10 ^ (dexp d - e).

Definition add (a b : Decimal) : Decimal :=
  let e := Z.min (dexp a) (dexp b) in
  fix_ctx (mkDec (align a e + align b e) e).

Definition neg (a : Decimal) : Decimal := mkDec (- coef a) (dexp a).

Definition sub (a b : Decimal) : Decimal := add a (neg b).

Definition mul (a b : Decimal) : Decimal :=
  fix_ctx (mkDec (coef a * coef b) (dexp a + dexp b)).

(** [abs(x)] rounds to the context like every other operation. *)
Definition abs (a : Decimal) : Decimal := fix_ctx (mkDec (Z.abs (coef a)) (dexp a)).

(** Exact quotients are brought back towards the ideal exponent. *)
Fixpoint strip_zeros (fuel : nat) (c e : Z) : Z * Z :=
  match fuel with
  | O => (c, e)
  | S fuel' => if c mod 10 =? 0 then strip_zeros fuel' (c / 10) (e + 1) else (c, e)
  end.

(** [Decimal.__truediv__]. *)
Definition div (a b : Decimal) : result Decimal :=
  if coef b =? 0 then
    Raise (if coef a =? 0 then InvalidOperation else DivisionByZero)
  else if coef a =? 0 then Ok (fix_ctx (mkDec 0 (dexp a - dexp b)))
  else
    let sgn := Z.sgn (coef a) * Z.sgn (coef b) in
    let op1 := Z.abs (coef a) in
    let op2 := Z.abs (coef b) in
    let shift := ndigits op2 - ndigits op1 + prec + 1 in
    let e := dexp a - dexp b - shift in
    let num := if 0 <=? shift then op1 * 10 ^ shift else op1 in
    let den := if 0 <=? shift then op2 else op2 * 10 ^ (- shift) in
    let q := num / den in
    let r := num mod den in
    if r =? 0 then
      let '(c, e') := strip_zeros (Z.to_nat (dexp a - dexp b - e)) q e in
      Ok (fix_ctx (mkDec (sgn * c) e'))
    else
      let q' := if q mod 5 =? 0 then q + 1 else q in
      Ok (fix_ctx (mkDec (sgn * q') e)).

(** [x.quantize(Decimal('0.01'), rounding=mode)]. *)
Definition quantize (mode : rounding) (d : Decimal) : result Decimal :=
  if coef d =? 0 then Ok (mkDec 0 (-2))
  else if prec <? dexp d + ndigits (Z.abs (coef d)) + 2 then Raise InvalidOperation
  else
    let c := if -2 <=? dexp d
             then coef d * 10 ^ (dexp d + 2)
             else round_drop mode (coef d) (- 2 - dexp d) in
    if prec <? ndigits (Z.abs c) then Raise InvalidOperation
    else Ok (mkDec c (-2)).

(** Comparisons are numeric: [Decimal('1.0') == Decimal('1.00')]. *)
Definition compare (a b : Decimal) : comparison :=
  let e := Z.min (dexp a) (dexp b) in
  (align a e ?= align b e).

Definition eqb (a b : Decimal) : bool :=
  match compare a b with Eq => true | _ => false end.
Definition ltb (a b : Decimal) : bool :=
  match compare a b with Lt => true | _ => false end.
Definition leb (a b : Decimal) : bool :=
  match compare a b with Gt => false | _ => true end.

(** The builtin [min(a, b)]: [b] only when [b < a]. *)
Definition min (a b : Decimal) : Decimal := if ltb b a then b else a.

(** The builtin [sum(...)], which starts from 0. *)
Definition sum (l : list Decimal) : Decimal := fold_left add l zero.

End Dec.


(** ** Python dictionaries, in insertion order *)

Module Dict.

Definition dict (V : Type) : Type := list (string * V).

Section Ops.
Context {V : Type}.

(** [d.get(k)] *)
Fixpoint get (d : dict V) (k : string) : option V :=
  match d with
  | [] => None
  | (k', v) :: d' => if String.eqb k' k then Some v else get d' k
  end.

(** [d.get(k, default)] *)
Definition get_default (d : dict V) (k : string) (default : V) : V :=
  match get d k with
  | Some v => v
  | None => default
  end.

(** [d[k] = v]: an existing key keeps its position, a new one goes last. *)
Fixpoint set (d : dict V) (k : string) (v : V) : dict V :=
  match d with
  | [] => [(k, v)]
  | (k', v') :: d' =>
      if String.eqb k' k then (k', v) :: d' else (k', v') :: set d' k v
  end.

Definition keys (d : dict V) : list string := map fst d.
Definition values (d : dict V) : list V := map snd d.

(** [for k in d: d[k] = f(d[k])], where [f] may raise. *)
Definition update_all (f : V -> result V) (d : dict V) : result (dict V) :=
  mapM (fun kv => v <- f (snd kv) ;; Ok (fst kv, v)) d.
End Ops.

(** [d[k] += x].  Python raises KeyError on a missing key; the engine only
    does this on dictionaries that were initialised with every partner id
    (lemma [zero_dict_spec]), so that case is left as the identity. *)
Fixpoint iadd (d : dict Dec.Decimal) (k : string) (x : Dec.Decimal) : dict Dec.Decimal :=
  match d with
  | [] => []
  | (k', v) :: d' =>
      if String.eqb k' k then (k', Dec.add v x) :: d' else (k', v) :: iadd d' k x
  end.

End Dict.

Import Dec.
Import Dict.

(** ** Inputs *)

(** A partner dictionary, with the fields the engine reads; a missing
    numeric field reads as [Decimal('0')], a missing flag as [False]. *)
Record Partner : Type := mkPartner {
  partner_id : string;
  partner_type : string;
  capital_contributed : Decimal;
  ownership_percentage : Decimal;
  receives_preferred_return : bool;
  receives_promote : bool;
  current_capital_balance : Decimal
}.

(** A waterfall step dictionary: ["type"], ["rate"], ["percentage"]. *)
Record Step : Type := mkStep {
  step_type : string;
  rate : Decimal;
  percentage : Decimal
}.

(** The agreement terms the engine reads. *)
Record Agreement : Type := mkAgreement {
  has_deficit_restoration_obligation : bool;
  has_qualified_income_offset : bool;
  distribution_waterfall : list Step
}.

(** Running state of a waterfall: the per-partner totals and the pool. *)
Record wstate : Type := mkState {
  proceeds : dict Decimal;
  remaining : Decimal
}.

(** [{p["partner_id"]: Decimal('0') for p in partners}] *)
Definition zero_dict (partners : list Partner) : dict Decimal :=
  fold_left (fun d p => Dict.set d (partner_id p) zero) partners [].

(** What [logger.warning] is called with ([logger.info] and [logger.error]
    calls are not modelled). *)
Inductive warning : Type :=
| WarnTotalMismatch (total net_income : Decimal)
| WarnDeficit (partner : string)
| WarnNoProtection.

(** ** backend/app/utils/tax_calculations.py *)

Module TaxCalculations.

Definition calculate_section_704b_balance
    (beginning_balance contributions distributions income_allocations
     loss_allocations other_adjustments : Decimal) : result Decimal :=
  let ending_balance :=
    add (sub (add (sub (add beginning_balance contributions) distributions)
                  income_allocations) loss_allocations) other_adjustments in
  quantize ROUND_HALF_UP ending_balance.

Record validation_results : Type := mkValidation {
  capital_account_maintenance : bool;
  liquidation_consistency : bool;
  deficit_restoration : bool;
  substantial_economic_effect : bool
}.

(** The loop over [capital_accounts.items()], which stops at the first
    unprotected deficit: the flag and the warnings it logged. *)
Fixpoint find_unprotected_deficit (has_dro has_qio : bool)
    (capital_accounts : dict Decimal) : bool * list warning :=
  match capital_accounts with
  | [] => (false, [])
  | (partner, balance) :: rest =>
      if ltb balance zero && negb (has_dro || has_qio)
      then (true, [WarnDeficit partner])
      else find_unprotected_deficit has_dro has_qio rest
  end.

Definition validate_substantial_economic_effect
    (allocations : dict Decimal) (capital_accounts : dict Decimal)
    (partnership_agreement : Agreement) : validation_results * list warning :=
  let has_dro := has_deficit_restoration_obligation partnership_agreement in
  let has_qio := has_qualified_income_offset partnership_agreement in
  let '(has_unprotected_deficit, log) :=
    find_unprotected_deficit has_dro has_qio capital_accounts in
  ({| capital_account_maintenance := true;
      liquidation_consistency := true;
      deficit_restoration := if has_dro || has_qio then true else false;
      substantial_economic_effect :=
        if negb has_unprotected_deficit then true else false |},
   log).

(** The [return_of_capital] branch: the loop over the partners. *)
Fixpoint return_of_capital (partners : list Partner) (st : wstate) : wstate :=
  match partners with
  | [] => st
  | partner :: rest =>
      if leb (remaining st) zero then st
      else
        let unreturned_capital :=
          sub (capital_contributed partner)
              (get_default (proceeds st) (partner_id partner) zero) in
        let st' :=
          if ltb zero unreturned_capital then
            let distribution := min unreturned_capital (remaining st) in
            {| proceeds := iadd (proceeds st) (partner_id partner) distribution;
               remaining := sub (remaining st) distribution |}
          else st in
        return_of_capital rest st'
  end.

(** The [preferred_return] branch. *)
Fixpoint preferred_return (preferred_rate : Decimal) (partners : list Partner)
    (st : wstate) : wstate :=
  match partners with
  | [] => st
  | partner :: rest =>
      if leb (remaining st) zero then st
      else
        let st' :=
          if receives_preferred_return partner then
            let preferred := mul (capital_contributed partner) preferred_rate in
            let distribution := min preferred (remaining st) in
            {| proceeds := iadd (proceeds st) (partner_id partner) distribution;
               remaining := sub (remaining st) distribution |}
          else st in
        preferred_return preferred_rate rest st'
  end.

(** The [pro_rata] branch: every share is taken of the same pool. *)
Fixpoint pro_rata_shares (total_ownership pool : Decimal)
    (partners : list Partner) (partner_proceeds : dict Decimal)
    : result (dict Decimal) :=
  match partners with
  | [] => Ok partner_proceeds
  | partner :: rest =>
      pro_rata_share <- div (ownership_percentage partner) total_ownership ;;
      let distribution := mul pool pro_rata_share in
      pro_rata_shares total_ownership pool rest
        (iadd partner_proceeds (partner_id partner) distribution)
  end.

Definition pro_rata (partners : list Partner) (st : wstate) : result wstate :=
  let total_ownership := sum (map ownership_percentage partners) in
  if ltb zero total_ownership then
    partner_proceeds <-
      pro_rata_shares total_ownership (remaining st) partners (proceeds st) ;;
    Ok {| proceeds := partner_proceeds; remaining := zero |}
  else Ok st.

Definition run_step (partners : list Partner) (step : Step) (st : wstate)
    : result wstate :=
  if String.eqb (step_type step) "return_of_capital" then
    Ok (return_of_capital partners st)
  else if String.eqb (step_type step) "preferred_return" then
    Ok (preferred_return (rate step) partners st)
  else if String.eqb (step_type step) "pro_rata" then
    pro_rata partners st
  else Ok st.

(** The loop over [waterfall_steps]. *)
Fixpoint run_waterfall (partners : list Partner) (waterfall_steps : list Step)
    (st : wstate) : result wstate :=
  match waterfall_steps with
  | [] => Ok st
  | step :: rest =>
      if leb (remaining st) zero then Ok st
      else st' <- run_step partners step st ;; run_waterfall partners rest st'
  end.

Definition initial_state (total_proceeds : Decimal) (partners : list Partner)
    : wstate :=
  {| proceeds := zero_dict partners; remaining := total_proceeds |}.

Definition calculate_liquidation_proceeds (total_proceeds : Decimal)
    (waterfall_steps : list Step) (partners : list Partner)
    : result (dict Decimal) :=
  st <- run_waterfall partners waterfall_steps
          (initial_state total_proceeds partners) ;;
  update_all (quantize ROUND_HALF_UP) (proceeds st).

(** The first loop of [calculate_target_allocations]. *)
Fixpoint raw_allocations (partners : list Partner)
    (liquidation_proceeds current_balances : dict Decimal)
    (target_allocations : dict Decimal) : result (dict Decimal) :=
  match partners with
  | [] => Ok target_allocations
  | partner :: rest =>
      let target_balance :=
        get_default liquidation_proceeds (partner_id partner) zero in
      let current_balance :=
        get_default current_balances (partner_id partner) zero in
      let required_allocation := sub target_balance current_balance in
      q <- quantize ROUND_HALF_UP required_allocation ;;
      raw_allocations rest liquidation_proceeds current_balances
        (Dict.set target_allocations (partner_id partner) q)
  end.

Definition calculate_target_allocations (partners : list Partner)
    (net_income : Decimal) (liquidation_proceeds current_balances : dict Decimal)
    : result (dict Decimal * list warning) :=
  target_allocations <-
    raw_allocations partners liquidation_proceeds current_balances [] ;;
  let total_allocations := sum (values target_allocations) in
  if ltb one_cent (abs (sub total_allocations net_income)) then
    let log := [WarnTotalMismatch total_allocations net_income] in
    if negb (eqb total_allocations zero) then
      adjustment_factor <- div net_income total_allocations ;;
      adjusted <-
        update_all (fun a => quantize ROUND_HALF_UP (mul a adjustment_factor))
                   target_allocations ;;
      Ok (adjusted, log)
    else Ok (target_allocations, log)
  else Ok (target_allocations, []).






End TaxCalculations.

(** ** backend/app/services/capital_account_manager.py *)

Module CapitalAccountManager.

(** [self.precision]; [quantize(self.precision)] passes no rounding mode and
    so rounds with the context's ROUND_HALF_EVEN. *)
Definition precision : Decimal := mkDec 1 (-2).

(** The [return_of_capital] branch of [_model_liquidation_distribution]. *)
Fixpoint return_of_capital (partners : list Partner) (st : wstate) : wstate :=
  match partners with
  | [] => st
  | partner :: rest =>
      let distribution := min (capital_contributed partner) (remaining st) in
      let st' :=
        {| proceeds := iadd (proceeds st) (partner_id partner) distribution;
           remaining := sub (remaining st) distribution |} in
      if leb (remaining st') zero then st' else return_of_capital rest st'
  end.

Fixpoint preferred_return (preferred_rate : Decimal) (partners : list Partner)
    (st : wstate) : wstate :=
  match partners with
  | [] => st
  | partner :: rest =>
      let st' :=
        if String.eqb (partner_type partner) "limited" then
          let preferred := mul (capital_contributed partner) preferred_rate in
          let distribution := min preferred (remaining st) in
          {| proceeds := iadd (proceeds st) (partner_id partner) distribution;
             remaining := sub (remaining st) distribution |}
        else st in
      preferred_return preferred_rate rest st'
  end.

(** The [catch_up] and [promote] branches differ only in who is eligible. *)
Fixpoint share_of_pool (eligible : Partner -> bool) (pct : Decimal)
    (partners : list Partner) (st : wstate) : wstate :=
  match partners with
  | [] => st
  | partner :: rest =>
      let st' :=
        if eligible partner then
          let amount := mul (remaining st) pct in
          {| proceeds := iadd (proceeds st) (partner_id partner) amount;
             remaining := sub (remaining st) amount |}
        else st in
      share_of_pool eligible pct rest st'
  end.

Definition catch_up (step : Step) (partners : list Partner) (st : wstate)
    : result wstate :=
  catch_up_percentage <- div (percentage step) hundred ;;
  Ok (share_of_pool (fun p => String.eqb (partner_type p) "general")
        catch_up_percentage partners st).

Definition promote (step : Step) (partners : list Partner) (st : wstate)
    : result wstate :=
  promote_percentage <- div (percentage step) hundred ;;
  Ok (share_of_pool receives_promote promote_percentage partners st).

(** The [pro_rata] branch: the pool is read, never written. *)
Fixpoint pro_rata_shares (total_interests pool : Decimal)
    (partners : list Partner) (partner_distributions : dict Decimal)
    : result (dict Decimal) :=
  match partners with
  | [] => Ok partner_distributions
  | partner :: rest =>
      pro_rata_share <-
        (if ltb zero total_interests
         then div (ownership_percentage partner) total_interests
         else Ok zero) ;;
      let distribution := mul pool pro_rata_share in
      pro_rata_shares total_interests pool rest
        (iadd partner_distributions (partner_id partner) distribution)
  end.

Definition pro_rata (partners : list Partner) (st : wstate) : result wstate :=
  let total_interests := sum (map ownership_percentage partners) in
  partner_distributions <-
    pro_rata_shares total_interests (remaining st) partners (proceeds st) ;;
  Ok {| proceeds := partner_distributions; remaining := remaining st |}.

Definition run_step (partners : list Partner) (step : Step) (st : wstate)
    : result wstate :=
  if String.eqb (step_type step) "return_of_capital" then
    Ok (return_of_capital partners st)
  else if String.eqb (step_type step) "preferred_return" then
    Ok (preferred_return (rate step) partners st)
  else if String.eqb (step_type step) "catch_up" then
    catch_up step partners st
  else if String.eqb (step_type step) "promote" then
    promote step partners st
  else if String.eqb (step_type step) "pro_rata" then
    pro_rata partners st
  else Ok st.

(** The loop over the steps; the pool is tested after each step. *)
Fixpoint run_waterfall (partners : list Partner) (waterfall_steps : list Step)
    (st : wstate) : result wstate :=
  match waterfall_steps with
  | [] => Ok st
  | step :: rest =>
      st' <- run_step partners step st ;;
      if leb (remaining st') zero then Ok st'
      else run_waterfall partners rest st'
  end.

Record liquidation_analysis : Type := mkAnalysis {
  total_proceeds : Decimal;
  partner_distributions : dict Decimal;
  waterfall_steps_processed : nat;
  remaining_proceeds : Decimal
}.

(** [asset_values] is read for ["total_fair_market_value"] only. *)
Definition _model_liquidation_distribution (partners : list Partner)
    (agreement_terms : Agreement) (total_fair_market_value : Decimal)
    : result liquidation_analysis :=
  let waterfall_steps := distribution_waterfall agreement_terms in
  st <- run_waterfall partners waterfall_steps
          {| proceeds := zero_dict partners;
             remaining := total_fair_market_value |} ;;
  Ok {| total_proceeds := total_fair_market_value;
        partner_distributions := proceeds st;
        waterfall_steps_processed := List.length waterfall_steps;
        remaining_proceeds := remaining st |}.

Fixpoint target_balances_loop (partners : list Partner)
    (distributions : dict Decimal) (target_balances : dict Decimal)
    : result (dict Decimal) :=
  match partners with
  | [] => Ok target_balances
  | partner :: rest =>
      let target_balance := get_default distributions (partner_id partner) zero in
      q <- quantize ROUND_HALF_EVEN target_balance ;;
      target_balances_loop rest distributions
        (Dict.set target_balances (partner_id partner) q)
  end.

Definition _calculate_target_balances (partners : list Partner)
    (analysis : liquidation_analysis) : result (dict Decimal) :=
  target_balances_loop partners (partner_distributions analysis) [].

Fixpoint raw_allocations (partners : list Partner)
    (target_balances : dict Decimal) (required_allocations : dict Decimal)
    : result (dict Decimal) :=
  match partners with
  | [] => Ok required_allocations
  | partner :: rest =>
      let current_balance := current_capital_balance partner in
      let target_balance := get_default target_balances (partner_id partner) zero in
      let required_allocation := sub target_balance current_balance in
      q <- quantize ROUND_HALF_EVEN required_allocation ;;
      raw_allocations rest target_balances
        (Dict.set required_allocations (partner_id partner) q)
  end.

Definition _calculate_required_allocations (partners : list Partner)
    (target_balances : dict Decimal) (net_income : Decimal)
    : result (dict Decimal * list warning) :=
  required_allocations <- raw_allocations partners target_balances [] ;;
  let total_allocations := sum (values required_allocations) in
  if ltb precision (abs (sub total_allocations net_income)) then
    let log := [WarnTotalMismatch total_allocations net_income] in
    if negb (eqb total_allocations zero) then
      adjustment_factor <- div net_income total_allocations ;;
      adjusted <-
        update_all (fun a => quantize ROUND_HALF_EVEN (mul a adjustment_factor))
                   required_allocations ;;
      Ok (adjusted, log)
    else Ok (required_allocations, log)
  else Ok (required_allocations, []).

Record compliance_check : Type := mkCompliance {
  substantial_economic_effect : bool;
  capital_account_maintenance : bool;
  liquidation_consistency : bool;
  deficit_restoration_obligation : bool
}.

(** The loop over [target_balances.items()]: it visits every partner,
    threading the flag and the warnings logged so far. *)
Fixpoint deficit_scan (has_dro has_qio : bool) (target_balances : dict Decimal)
    (see : bool) (log : list warning) : bool * list warning :=
  match target_balances with
  | [] => (see, log)
  | (partner, balance) :: rest =>
      if ltb balance zero && negb has_dro && negb has_qio
      then deficit_scan has_dro has_qio rest false (log ++ [WarnDeficit partner])
      else deficit_scan has_dro has_qio rest see log
  end.

Definition _validate_allocations_compliance (allocations : dict Decimal)
    (agreement_terms : Agreement) (target_balances : dict Decimal)
    : compliance_check * list warning :=
  let has_dro := has_deficit_restoration_obligation agreement_terms in
  let has_qio := has_qualified_income_offset agreement_terms in
  let dro_log := if negb (has_dro || has_qio) then [WarnNoProtection] else [] in
  let '(see, log) := deficit_scan has_dro has_qio target_balances true dro_log in
  ({| substantial_economic_effect := see;
      capital_account_maintenance := true;
      liquidation_consistency := true;
      deficit_restoration_obligation :=
        if negb (has_dro || has_qio) then false else true |},
   log).

(** The request of [calculate_target_allocations]: the keys it reads of
    [calculation_data], with ["asset_values"] reduced to the one entry the
    liquidation model uses. *)
Record calculation_data : Type := mkCalculation {
  partners : list Partner;
  net_income : Decimal;
  agreement_terms : Agreement;
  total_fair_market_value : Decimal
}.

Record TargetAllocationResult : Type := mkTargetAllocation {
  target_balances : dict Decimal;
  required_allocations : dict Decimal;
  compliance : compliance_check;
  calculation_method : string;
  waterfall_analysis : liquidation_analysis
}.

(** [calculate_target_allocations]: the four steps in sequence; an
    exception of any step is logged and raised again.  The warnings of the
    solver come before those of the validator. *)
Definition calculate_target_allocations (data : calculation_data)
    : result (TargetAllocationResult * list warning) :=
  analysis <- _model_liquidation_distribution (partners data)
                (agreement_terms data) (total_fair_market_value data) ;;
  targets <- _calculate_target_balances (partners data) analysis ;;
  required <- _calculate_required_allocations (partners data) targets
                (net_income data) ;;
  let check := _validate_allocations_compliance (fst required)
                 (agreement_terms data) targets in
  Ok ({| target_balances := targets;
         required_allocations := fst required;
         compliance := fst check;
         calculation_method := "target_capital_account";
         waterfall_analysis := analysis |},
      snd required ++ snd check).

End CapitalAccountManager.

(** ** Vocabulary of the properties *)

(** A dictionary entry whose balance is below zero. *)
Definition negative (kv : string * Decimal) : bool := ltb (snd kv) zero.

(** An amount that is a whole number of cents, and that number. *)
Definition penny (d : Decimal) : Prop := -2 <= dexp d.
Definition cents (d : Decimal) : Z := coef d * 10 ^ (dexp d + 2).

(** Monetary inputs: whole cents, at most 10^27 of them in magnitude, so
    that sums and differences of two of them still fit the 28 digits of the
    context. *)
Definition money_limit : Z := 10 ^ 27.
Definition money (d : Decimal) : Prop :=
  penny d /\ Z.abs (cents d) <= money_limit.

(** The same amounts read in integer cents. *)
Definition penny_dict (d : dict Decimal) : Prop :=
  Forall (fun kv => penny (snd kv)) d.
Definition cents_dict (d : dict Decimal) : dict Z :=
  map (fun kv => (fst kv, cents (snd kv))) d.
Definition penny_state (st : wstate) : Prop :=
  penny (remaining st) /\ penny_dict (proceeds st).
Definition view (st : wstate) : dict Z * Z :=
  (cents_dict (proceeds st), cents (remaining st)).

(** The return-of-capital loops of the two waterfalls, replayed on integer
    cents; the decimal loops are shown to compute exactly these whenever
    the amounts are [money]. *)
Module Cents.

Fixpoint iadd (m : dict Z) (k : string) (x : Z) : dict Z :=
  match m with
  | [] => []
  | (k', v) :: m' =>
      if String.eqb k' k then (k', v + x) :: m' else (k', v) :: iadd m' k x
  end.

Definition total (m : dict Z) : Z := fold_right Z.add 0 (values m).

Definition capital (p : Partner) : Z := cents (capital_contributed p).

Fixpoint return_of_capital (partners : list Partner) (m : dict Z) (r : Z)
    : dict Z * Z :=
  match partners with
  | [] => (m, r)
  | partner :: rest =>
      if r <=? 0 then (m, r)
      else
        let unreturned := capital partner - get_default m (partner_id partner) 0 in
        if 0 <? unreturned then
          let distribution := Z.min unreturned r in
          return_of_capital rest (iadd m (partner_id partner) distribution)
            (r - distribution)
        else return_of_capital rest m r
  end.

Fixpoint manager_return_of_capital (partners : list Partner) (m : dict Z) (r : Z)
    : dict Z * Z :=
  match partners with
  | [] => (m, r)
  | partner :: rest =>
      let distribution := Z.min (capital partner) r in
      let m' := iadd m (partner_id partner) distribution in
      let r' := r - distribution in
      if r' <=? 0 then (m', r') else manager_return_of_capital rest m' r'
  end.

(** Non-negative totals and pool, each total plus the pool within [M]. *)
Definition bounded (M : Z) (s : dict Z * Z) : Prop :=
  0 <= snd s <= M /\
  Forall (fun kv => 0 <= snd kv /\ snd kv + snd s <= M) (fst s).

End Cents.

(** What conservation needs of a state: whole cents, non-negative and
    bounded, every partner present, and the cents adding up to [T]. *)
Definition conserving (T M : Z) (partners : list Partner) (st : wstate) : Prop :=
  penny_state st /\ Cents.bounded M (view st) /\
  Cents.total (fst (view st)) + snd (view st) = T /\
  Forall (fun p => In (partner_id p) (keys (proceeds st))) partners.

(** ** The return_of_capital step in the words of the specification *)

(** Hand [distribution] to a partner out of the pool. *)
Definition pay (st : wstate) (id : string) (distribution : Decimal) : wstate :=
  {| proceeds := iadd (proceeds st) id distribution;
     remaining := sub (remaining st) distribution |}.

(** "For partners in their given order, distribute min(unreturned,
    remaining); decrement remaining after each partner; stop iterating
    partners early if remaining reaches zero."  [due] says what is still
    unreturned to a partner, if anything. *)
Fixpoint spec_return_of_capital (due : wstate -> Partner -> option Decimal)
    (partners : list Partner) (st : wstate) : wstate :=
  match partners with
  | [] => st
  | partner :: rest =>
      let st' :=
        match due st partner with
        | Some unreturned =>
            pay st (partner_id partner) (min unreturned (remaining st))
        | None => st
        end in
      if eqb (remaining st') zero then st'
      else spec_return_of_capital due rest st'
  end.

(** As claimed: the capital contributed less what this step category has
    already distributed to the partner ([paid]; nothing before the first
    return_of_capital step). *)
Definition due_in_category (paid : dict Decimal) (st : wstate) (p : Partner)
    : option Decimal :=
  Some (sub (capital_contributed p) (get_default paid (partner_id p) zero)).

(** In [calculate_liquidation_proceeds]: the capital contributed less
    everything distributed to the partner so far, when that is positive. *)
Definition due_standalone (st : wstate) (p : Partner) : option Decimal :=
  let unreturned :=
    sub (capital_contributed p) (get_default (proceeds st) (partner_id p) zero) in
  if ltb zero unreturned then Some unreturned else None.

(** In [_model_liquidation_distribution]: the capital contributed. *)
Definition due_manager (st : wstate) (p : Partner) : option Decimal :=
  Some (capital_contributed p).

(** What a partner received between two states of a waterfall. *)
Definition received (before after : wstate) (id : string) : Decimal :=
  sub (get_default (proceeds after) id zero) (get_default (proceeds before) id zero).

(** The same partner with another capital contribution. *)
Definition with_capital (p : Partner) (capital : Decimal) : Partner :=
  {| partner_id := partner_id p; partner_type := partner_type p;
     capital_contributed := capital;
     ownership_percentage := ownership_percentage p;
     receives_preferred_return := receives_preferred_return p;
     receives_promote := receives_promote p;
     current_capital_balance := current_capital_balance p |}.

(** The step types [calculate_liquidation_proceeds] has a branch for. *)
Definition recognised (s : Step) : bool :=
  String.eqb (step_type s) "return_of_capital"
  || String.eqb (step_type s) "preferred_return"
  || String.eqb (step_type s) "pro_rata".

(** ** Concrete inputs *)

Definition dollars (n : Z) : Decimal := mkDec n 0.

Definition partner (id type : string) (capital ownership : Decimal)
    (preferred promote : bool) : Partner :=
  {| partner_id := id; partner_type := type;
     capital_contributed := capital; ownership_percentage := ownership;
     receives_preferred_return := preferred; receives_promote := promote;
     current_capital_balance := zero |}.

Definition step (type : string) : Step :=
  {| step_type := type; rate := zero; percentage := zero |}.

(** Three partners with equal ownership and no capital. *)
Definition three_equal_partners : list Partner :=
  [ partner "A" "limited" zero (dollars 1) false false;
    partner "B" "limited" zero (dollars 1) false false;
    partner "C" "limited" zero (dollars 1) false false ].

(** One limited partner, eligible for the preferred return. *)
Definition sole_partner (capital : Decimal) : list Partner :=
  [ partner "A" "limited" capital (dollars 1) true false ].

(** Target balances of 1.00 for each of the three equal partners. *)
Definition one_dollar_each : dict Decimal :=
  [("A", dollars 1); ("B", dollars 1); ("C", dollars 1)].


(** Two partners, 100 contributed each, equal ownership. *)
Definition two_partners : list Partner :=
  [ partner "A" "limited" (dollars 100) (mkDec 50 (-2)) false false;
    partner "B" "general" (dollars 100) (mkDec 50 (-2)) false false ].

(** The partners of the specification's first scenario. *)
Definition scenario_partners : list Partner :=
  [ partner "A" "limited" (mkDec 60000000 (-2)) (mkDec 60 (-2)) true false;
    partner "B" "general" (mkDec 40000000 (-2)) (mkDec 40 (-2)) false false ].

(** Closed [money] goals are settled by computation. *)
Ltac is_money := split; vm_compute; discriminate.

(* ================================================================== *)
(** * Properties *)
(* ================================================================== *)

Import TaxCalculations.
Module CAM := CapitalAccountManager.

#[local] Arguments Z.pow : simpl never.

(** ** The decimal model on library examples *)

Example div_one_third :
  div (mkDec 1 0) (mkDec 3 0) = Ok (mkDec 3333333333333333333333333333 (-28)).
Proof. vm_compute. reflexivity. Qed.

Example mul_rounds_to_context :
  mul (mkDec 10001 (-2)) (mkDec 3333333333333333333333333333 (-28))
  = mkDec 3333666666666666666666666666 (-26).
Proof. vm_compute. reflexivity. Qed.

Example add_keeps_lower_exponent :
  (add zero (mkDec 1 2), sub (mkDec 5 2) (mkDec 1 2), sub (mkDec 5 2) (mkDec 100 0))
  = (mkDec 100 0, mkDec 4 2, mkDec 400 0).
Proof. vm_compute. reflexivity. Qed.

Example div_exact_quotients :
  (div (mkDec 1 0) (mkDec 2 0), div hundred hundred, div (mkDec 8 0) hundred,
   div (mkDec 0 (-2)) (mkDec 3 0), div (mkDec 15 0) (mkDec 4 0))
  = (Ok (mkDec 5 (-1)), Ok (mkDec 1 0), Ok (mkDec 8 (-2)),
     Ok (mkDec 0 (-2)), Ok (mkDec 375 (-2))).
Proof. vm_compute. reflexivity. Qed.

Example quantize_ties :
  (quantize ROUND_HALF_UP (mkDec 2675 (-3)), quantize ROUND_HALF_EVEN (mkDec 2665 (-3)),
   quantize ROUND_HALF_EVEN (mkDec 2675 (-3)), quantize ROUND_HALF_UP (mkDec (-2675) (-3)))
  = (Ok (mkDec 268 (-2)), Ok (mkDec 266 (-2)), Ok (mkDec 268 (-2)), Ok (mkDec (-268) (-2))).
Proof. vm_compute. reflexivity. Qed.

Example quantize_too_many_digits :
  (quantize ROUND_HALF_EVEN (mkDec 1 26), quantize ROUND_HALF_EVEN (mkDec 1 25),
   quantize ROUND_HALF_UP (mkDec 99999999999999999999999999995 (-3)))
  = (Raise InvalidOperation, Ok (mkDec (10 ^ 27) (-2)), Raise InvalidOperation).
Proof. vm_compute. reflexivity. Qed.

Example add_far_exponents :
  (add (mkDec 1 50) (mkDec 1 0), add (mkDec 0 (-100)) (mkDec 5 0))
  = (mkDec (10 ^ 27) 23, mkDec (5 * 10 ^ 27) (-27)).
Proof. vm_compute. reflexivity. Qed.

(** ** Compliance validator *)

Lemma deficit_scan_protected (has_dro has_qio : bool) tb see log :
  has_dro || has_qio = true ->
  CAM.deficit_scan has_dro has_qio tb see log = (see, log).
Proof.
  intros H. revert see log.
  induction tb as [|[p b] tb IH]; intros see log; simpl; [reflexivity|].
  destruct has_dro, has_qio; simpl in *; try discriminate;
    rewrite ?andb_false_r; apply IH.
Qed.

Lemma deficit_scan_unprotected tb see log :
  CAM.deficit_scan false false tb see log =
  (see && negb (existsb negative tb),
   log ++ map WarnDeficit (keys (filter negative tb))).
Proof.
  revert see log.
  induction tb as [|[p b] tb IH]; intros see log; simpl.
  - now rewrite andb_true_r, app_nil_r.
  - change (negative (p, b)) with (ltb b zero). rewrite !andb_true_r.
    destruct (ltb b zero); simpl.
    + rewrite IH. simpl. rewrite andb_false_r, <- app_assoc. reflexivity.
    + apply IH.
Qed.

Lemma find_unprotected_deficit_protected (has_dro has_qio : bool) tb :
  has_dro || has_qio = true ->
  find_unprotected_deficit has_dro has_qio tb = (false, []).
Proof.
  intros H. induction tb as [|[p b] tb IH]; simpl; [reflexivity|].
  rewrite H. simpl. rewrite andb_false_r. exact IH.
Qed.

Lemma find_unprotected_deficit_unprotected tb :
  find_unprotected_deficit false false tb =
  (existsb negative tb,
   match filter negative tb with
   | [] => []
   | (p, _) :: _ => [WarnDeficit p]
   end).
Proof.
  induction tb as [|[p b] tb IH]; simpl; [reflexivity|].
  change (negative (p, b)) with (ltb b zero). rewrite andb_true_r.
  destruct (ltb b zero); simpl; [reflexivity | exact IH].
Qed.

(** C6.  Both validators report the deficit-restoration flag as
    [has_dro or has_qio].  When neither provision is present and some
    partner's target balance is below zero, substantial economic effect is
    reported false and a triggering partner is recorded in a warning: the
    manager's validator records every such partner, the standalone one the
    first it meets.  With a deficit restoration obligation the flag is
    reported true whatever the balances. *)
Theorem C6_compliance_rules
    (allocations target_balances : dict Decimal) (terms : Agreement) :
  let has_dro := has_deficit_restoration_obligation terms in
  let has_qio := has_qualified_income_offset terms in
  let check := CAM._validate_allocations_compliance allocations terms target_balances in
  let res := validate_substantial_economic_effect allocations target_balances terms in
  (CAM.deficit_restoration_obligation (fst check) = has_dro || has_qio
   /\ deficit_restoration (fst res) = has_dro || has_qio)
  /\ (has_dro = false -> has_qio = false ->
      forall p b, In (p, b) target_balances -> ltb b zero = true ->
        CAM.substantial_economic_effect (fst check) = false
        /\ In (WarnDeficit p) (snd check)
        /\ substantial_economic_effect (fst res) = false
        /\ exists p' b', In (p', b') target_balances /\ ltb b' zero = true
                         /\ snd res = [WarnDeficit p'])
  /\ (has_dro = true ->
      CAM.substantial_economic_effect (fst check) = true
      /\ substantial_economic_effect (fst res) = true).
Proof.
  destruct terms as [has_dro has_qio wf].
  cbn [has_deficit_restoration_obligation has_qualified_income_offset].
  unfold CAM._validate_allocations_compliance, validate_substantial_economic_effect.
  cbn [has_deficit_restoration_obligation has_qualified_income_offset].
  cbv zeta. split; [|split].
  - destruct (CAM.deficit_scan _ _ _ _ _), (find_unprotected_deficit _ _ _).
    destruct has_dro, has_qio; split; reflexivity.
  - intros -> -> p b Hin Hneg.
    rewrite deficit_scan_unprotected, find_unprotected_deficit_unprotected.
    assert (Hf : In (p, b) (filter negative target_balances)).
    { apply filter_In. split; [assumption | exact Hneg]. }
    assert (He : existsb negative target_balances = true).
    { apply existsb_exists. exists (p, b). split; [assumption | exact Hneg]. }
    rewrite He. cbn [fst snd negb andb orb].
    split; [reflexivity|]. split.
    + apply in_or_app. right. apply in_map. unfold keys.
      change p with (fst (p, b)). apply in_map. exact Hf.
    + split; [reflexivity|].
      destruct (filter negative target_balances) as [|[p' b'] rest] eqn:E;
        [contradiction|].
      assert (Hin' : In (p', b') (filter negative target_balances))
        by (rewrite E; left; reflexivity).
      apply filter_In in Hin'. destruct Hin' as [H1 H2].
      exists p', b'. auto.
  - intros ->.
    rewrite deficit_scan_protected, find_unprotected_deficit_protected by reflexivity.
    split; reflexivity.
Qed.

(** C6 at a balance of exactly -0.01: without protection the flag falls
    and partner A is recorded; with a deficit restoration obligation the
    flag stays true. *)
Lemma C6_witness :
  (CAM.substantial_economic_effect
     (fst (CAM._validate_allocations_compliance []
             (mkAgreement false false []) [("A", mkDec (-1) (-2))])) = false
   /\ In (WarnDeficit "A")
        (snd (CAM._validate_allocations_compliance []
                (mkAgreement false false []) [("A", mkDec (-1) (-2))])))
  /\ CAM.substantial_economic_effect
       (fst (CAM._validate_allocations_compliance []
               (mkAgreement true false []) [("A", mkDec (-1) (-2))])) = true.
Proof.
  split.
  - destruct (C6_compliance_rules [] [("A", mkDec (-1) (-2))]
                (mkAgreement false false [])) as (_ & H & _).
    destruct (H eq_refl eq_refl "A"%string (mkDec (-1) (-2))
                (or_introl eq_refl) eq_refl) as (H1 & H2 & _).
    split; assumption.
  - destruct (C6_compliance_rules [] [("A", mkDec (-1) (-2))]
                (mkAgreement true false [])) as (_ & _ & H).
    exact (proj1 (H eq_refl)).
Defined.

(** C10.  Neither validator reads its [allocations] argument: two calls
    that differ only there return the same result, and both always report
    capital-account maintenance and liquidation consistency as true. *)
Theorem C10_validator_ignores_allocations
    (allocations1 allocations2 target_balances : dict Decimal) (terms : Agreement) :
  CAM._validate_allocations_compliance allocations1 terms target_balances
  = CAM._validate_allocations_compliance allocations2 terms target_balances
  /\ validate_substantial_economic_effect allocations1 target_balances terms
     = validate_substantial_economic_effect allocations2 target_balances terms
  /\ CAM.capital_account_maintenance
       (fst (CAM._validate_allocations_compliance allocations1 terms target_balances))
     = true
  /\ CAM.liquidation_consistency
       (fst (CAM._validate_allocations_compliance allocations1 terms target_balances))
     = true
  /\ capital_account_maintenance
       (fst (validate_substantial_economic_effect allocations1 target_balances terms))
     = true
  /\ liquidation_consistency
       (fst (validate_substantial_economic_effect allocations1 target_balances terms))
     = true.
Proof.
  unfold CAM._validate_allocations_compliance, validate_substantial_economic_effect.
  destruct (CAM.deficit_scan _ _ _ _ _), (find_unprotected_deficit _ _ _).
  repeat split; reflexivity.
Qed.

(** ** Decimal arithmetic on whole cents *)

Lemma ndigits_aux_spec fuel : forall n,
  0 <= n < 2 ^ Z.of_nat fuel ->
  1 <= ndigits_aux fuel n /\
  10 ^ (ndigits_aux fuel n - 1) <= Z.max n 1 /\
  n < 10 ^ ndigits_aux fuel n.
Proof.
  induction fuel as [|fuel IH]; intros n Hn.
  - simpl in *. assert (n = 0) by lia. subst. simpl. lia.
  - cbn [ndigits_aux]. destruct (n <? 10) eqn:E.
    + apply Z.ltb_lt in E. change (10 ^ (1 - 1)) with 1. change (10 ^ 1) with 10. lia.
    + apply Z.ltb_ge in E.
      assert (Hq : 0 <= n / 10 < 2 ^ Z.of_nat fuel).
      { split; [apply Z.div_pos; lia|].
        apply Z.div_lt_upper_bound; [lia|].
        rewrite Nat2Z.inj_succ, Z.pow_succ_r in Hn by lia. lia. }
      destruct (IH _ Hq) as (H1 & H2 & H3).
      assert (Hq1 : 1 <= n / 10) by (apply Z.div_le_lower_bound; lia).
      replace (1 + ndigits_aux fuel (n / 10) - 1) with (Z.succ (ndigits_aux fuel (n / 10) - 1)) by lia.
      replace (1 + ndigits_aux fuel (n / 10)) with (Z.succ (ndigits_aux fuel (n / 10))) by lia.
      rewrite !Z.pow_succ_r by lia.
      pose proof (Z.div_mod n 10 ltac:(lia)) as Hdm.
      pose proof (Z.mod_pos_bound n 10 ltac:(lia)) as Hmb.
      lia.
Qed.

Lemma ndigits_spec n :
  0 <= n ->
  1 <= ndigits n /\ 10 ^ (ndigits n - 1) <= Z.max n 1 /\ n < 10 ^ ndigits n.
Proof.
  intros Hn. unfold ndigits. apply ndigits_aux_spec.
  split; [lia|].
  destruct (Z.eq_dec n 0) as [->|Hz].
  - simpl. lia.
  - rewrite Nat2Z.inj_succ, Z2Nat.id by apply Z.log2_nonneg.
    apply Z.log2_spec. lia.
Qed.

Lemma ndigits_le n k :
  0 <= n -> 0 <= k -> n < 10 ^ k -> 1 <= k -> ndigits n <= k.
Proof.
  intros Hn Hk Hlt Hk1.
  destruct (ndigits_spec n Hn) as (H1 & H2 & _).
  destruct (Z_le_gt_dec (ndigits n) k) as [|Hgt]; [assumption|exfalso].
  assert (10 ^ k <= 10 ^ (ndigits n - 1)) by (apply Z.pow_le_mono_r; lia).
  assert (10 ^ 1 <= 10 ^ k) by (apply Z.pow_le_mono_r; lia).
  change (10 ^ 1) with 10 in *. lia.
Qed.

Lemma fix_ctx_small d : Z.abs (coef d) < 10 ^ prec -> fix_ctx d = d.
Proof.
  intros H. unfold fix_ctx.
  assert (ndigits (Z.abs (coef d)) <= prec).
  { apply ndigits_le; unfold prec in *; lia. }
  destruct (ndigits (Z.abs (coef d)) <=? prec) eqn:E; [reflexivity|].
  apply Z.leb_gt in E. lia.
Qed.

Lemma pow10_pos k : 0 < 10 ^ k \/ k < 0.
Proof. destruct (Z_lt_le_dec k 0); [right; assumption | left; apply Z.pow_pos_nonneg; lia]. Qed.

Lemma align_cents d e :
  -2 <= e -> e <= dexp d -> align d e * 10 ^ (e + 2) = cents d.
Proof.
  intros H1 H2. unfold align, cents.
  rewrite <- Z.mul_assoc, <- Z.pow_add_r by lia.
  f_equal. f_equal. lia.
Qed.

Lemma abs_le_scaled x k : 0 <= k -> Z.abs x <= Z.abs (x * 10 ^ k).
Proof.
  intros Hk. rewrite Z.abs_mul.
  assert (0 < 10 ^ k) by (apply Z.pow_pos_nonneg; lia).
  rewrite (Z.abs_eq (10 ^ k)) by lia. nia.
Qed.

Lemma penny_neg d : penny d -> penny (neg d).
Proof. exact (fun H => H). Qed.

Lemma cents_neg d : cents (neg d) = - cents d.
Proof. unfold cents, neg. simpl. lia. Qed.

Lemma add_cents a b :
  penny a -> penny b -> Z.abs (cents a + cents b) < 10 ^ prec ->
  penny (add a b) /\ cents (add a b) = cents a + cents b.
Proof.
  intros Ha Hb Hlt. unfold penny in *. unfold add.
  set (e := Z.min (dexp a) (dexp b)).
  assert (He : -2 <= e) by (unfold e; lia).
  assert (Hs : (align a e + align b e) * 10 ^ (e + 2) = cents a + cents b).
  { rewrite Z.mul_add_distr_r, !align_cents by (unfold e; lia). reflexivity. }
  rewrite fix_ctx_small.
  - split; [exact He | exact Hs].
  - cbn [coef]. rewrite <- Hs in Hlt.
    pose proof (abs_le_scaled (align a e + align b e) (e + 2) ltac:(lia)) as Hle.
    eapply Z.le_lt_trans; [exact Hle | exact Hlt].
Qed.

Lemma sub_cents a b :
  penny a -> penny b -> Z.abs (cents a - cents b) < 10 ^ prec ->
  penny (sub a b) /\ cents (sub a b) = cents a - cents b.
Proof.
  intros Ha Hb Hlt. unfold sub.
  destruct (add_cents a (neg b) Ha (penny_neg b Hb)) as [H1 H2].
  - rewrite cents_neg. replace (cents a + - cents b) with (cents a - cents b) by lia. exact Hlt.
  - split; [exact H1|]. rewrite H2, cents_neg. lia.
Qed.

Lemma compare_cents a b :
  penny a -> penny b -> compare a b = (cents a ?= cents b).
Proof.
  intros Ha Hb. unfold penny in *. unfold compare.
  set (e := Z.min (dexp a) (dexp b)).
  rewrite <- (align_cents a e), <- (align_cents b e) by (unfold e; lia).
  apply Zmult_compare_compat_r.
  assert (0 < 10 ^ (e + 2)) by (apply Z.pow_pos_nonneg; unfold e; lia). lia.
Qed.

Lemma ltb_cents a b : penny a -> penny b -> ltb a b = (cents a <? cents b).
Proof.
  intros Ha Hb. unfold ltb, Z.ltb. now rewrite compare_cents.
Qed.

Lemma leb_cents a b : penny a -> penny b -> leb a b = (cents a <=? cents b).
Proof.
  intros Ha Hb. unfold leb, Z.leb. now rewrite compare_cents.
Qed.

Lemma eqb_cents a b : penny a -> penny b -> eqb a b = (cents a =? cents b).
Proof.
  intros Ha Hb. unfold eqb. rewrite compare_cents by assumption.
  destruct (Z.compare_spec (cents a) (cents b)); symmetry;
    [apply Z.eqb_eq | apply Z.eqb_neq | apply Z.eqb_neq]; lia.
Qed.

Lemma min_cents a b :
  penny a -> penny b ->
  penny (min a b) /\ cents (min a b) = Z.min (cents a) (cents b).
Proof.
  intros Ha Hb. unfold min. rewrite ltb_cents by assumption.
  destruct (Z.ltb_spec (cents b) (cents a)); split; try assumption; lia.
Qed.

Lemma quantize_cents mode d :
  penny d -> Z.abs (cents d) < 10 ^ prec ->
  quantize mode d = Ok (mkDec (cents d) (-2)).
Proof.
  intros Hp Hlt. unfold penny in Hp. unfold quantize.
  destruct (Z.eqb_spec (coef d) 0) as [Hz|Hz].
  - unfold cents. rewrite Hz. reflexivity.
  - assert (Hk : 0 <= dexp d + 2) by lia.
    assert (Hc : Z.abs (cents d) = Z.abs (coef d) * 10 ^ (dexp d + 2)).
    { unfold cents. rewrite Z.abs_mul, (Z.abs_eq (10 ^ _)); [reflexivity|].
      apply Z.pow_nonneg. lia. }
    destruct (ndigits_spec (Z.abs (coef d)) (Z.abs_nonneg _)) as (N1 & N2 & _).
    rewrite Z.max_l in N2 by lia.
    assert (Hn : ndigits (Z.abs (coef d)) - 1 + (dexp d + 2) < prec).
    { apply (Z.pow_lt_mono_r_iff 10); [lia | unfold prec; lia |].
      rewrite Z.pow_add_r by lia.
      eapply Z.le_lt_trans; [|exact Hlt]. rewrite Hc.
      apply Z.mul_le_mono_nonneg_r; [apply Z.pow_nonneg; lia | exact N2]. }
    destruct (Z.ltb_spec prec (dexp d + ndigits (Z.abs (coef d)) + 2)); [lia|].
    destruct (Z.leb_spec (-2) (dexp d)); [|lia].
    fold (cents d).
    destruct (Z.ltb_spec prec (ndigits (Z.abs (cents d)))) as [Hbad|]; [|reflexivity].
    assert (ndigits (Z.abs (cents d)) <= prec).
    { apply ndigits_le; unfold prec in *; lia. }
    lia.
Qed.

Lemma penny_zero : penny zero.
Proof. unfold penny. simpl. lia. Qed.

Lemma cents_zero : cents zero = 0.
Proof. reflexivity. Qed.

Lemma money_limit_lt : 2 * money_limit < 10 ^ prec.
Proof. vm_compute. reflexivity. Qed.

(** ** Dictionaries of whole cents *)

Lemma get_default_view d k :
  penny_dict d ->
  penny (get_default d k zero) /\
  cents (get_default d k zero) = get_default (cents_dict d) k 0.
Proof.
  unfold get_default. induction d as [|[k' v] d IH]; intros Hp; simpl.
  - split; [apply penny_zero | reflexivity].
  - inversion Hp; subst. destruct (String.eqb k' k); [split; [assumption | reflexivity]|].
    apply IH. assumption.
Qed.

Lemma get_default_bounded (P : Z -> Prop) (m : dict Z) k :
  Forall (fun kv => P (snd kv)) m -> P 0 -> P (get_default m k 0).
Proof.
  unfold get_default. intros H H0. induction m as [|[k' v] m IH]; simpl; [assumption|].
  inversion H; subst. destruct (String.eqb k' k); [assumption | now apply IH].
Qed.

Lemma iadd_view d k x :
  penny_dict d -> penny x ->
  Forall (fun kv => Z.abs (snd kv + cents x) < 10 ^ prec) (cents_dict d) ->
  penny_dict (iadd d k x) /\
  cents_dict (iadd d k x) = Cents.iadd (cents_dict d) k (cents x).
Proof.
  intros Hp Hx. induction d as [|[k' v] d IH]; intros Hb; simpl.
  - split; [constructor | reflexivity].
  - inversion Hp; subst. inversion Hb; subst. simpl in *.
    destruct (String.eqb k' k).
    + destruct (add_cents v x) as [A1 A2]; try assumption.
      split; [constructor; assumption|]. simpl. now rewrite A2.
    + destruct IH as [I1 I2]; try assumption.
      split; [constructor; assumption|]. simpl. now rewrite I2.
Qed.

Lemma cents_iadd_keys m k x : keys (Cents.iadd m k x) = keys m.
Proof.
  induction m as [|[k' v] m IH]; simpl; [reflexivity|].
  destruct (String.eqb k' k); simpl; [reflexivity | now rewrite IH].
Qed.

Lemma cents_iadd_total m k x :
  In k (keys m) -> Cents.total (Cents.iadd m k x) = Cents.total m + x.
Proof.
  unfold Cents.total. induction m as [|[k' v] m IH]; simpl; [tauto|].
  intros [->|Hin].
  - rewrite String.eqb_refl. simpl. lia.
  - destruct (String.eqb k' k); simpl; [lia|]. rewrite IH by assumption. lia.
Qed.

Lemma cents_iadd_zero m k : Cents.iadd m k 0 = m.
Proof.
  induction m as [|[k' v] m IH]; simpl; [reflexivity|].
  destruct (String.eqb k' k); [now rewrite Z.add_0_r | now rewrite IH].
Qed.

Lemma cents_iadd_get_other m k k' x :
  k <> k' -> get_default (Cents.iadd m k x) k' 0 = get_default m k' 0.
Proof.
  unfold get_default. intros Hne. induction m as [|[k0 v] m IH]; simpl; [reflexivity|].
  destruct (String.eqb_spec k0 k) as [->|Hk]; simpl.
  - destruct (String.eqb_spec k k'); [contradiction | reflexivity].
  - destruct (String.eqb k0 k'); [reflexivity | exact IH].
Qed.

Lemma cents_iadd_get_same m k x :
  In k (keys m) -> get_default (Cents.iadd m k x) k 0 = get_default m k 0 + x.
Proof.
  unfold get_default. induction m as [|[k0 v] m IH]; simpl; [tauto|].
  intros Hin. destruct (String.eqb_spec k0 k) as [->|Hk]; simpl.
  - now rewrite String.eqb_refl.
  - destruct (String.eqb_spec k0 k); [contradiction|].
    apply IH. destruct Hin; [contradiction | assumption].
Qed.

Lemma cents_iadd_bounded M m r k x :
  Cents.bounded M (m, r) -> 0 <= x <= r ->
  Cents.bounded M (Cents.iadd m k x, r - x).
Proof.
  unfold Cents.bounded. simpl. intros [Hr H] Hx. split; [lia|].
  induction m as [|[k' v] m IH]; simpl; [constructor|].
  inversion H; subst. simpl in *.
  destruct (String.eqb k' k).
  - constructor; [simpl; lia|].
    eapply Forall_impl; [|eassumption]. simpl. intros; lia.
  - constructor; [simpl; lia | now apply IH].
Qed.

(** ** The standalone return-of-capital loop computes on cents *)

Lemma return_of_capital_view partners : forall st M,
  M <= money_limit ->
  Forall (fun p => money (capital_contributed p)) partners ->
  penny_state st -> Cents.bounded M (view st) ->
  penny_state (return_of_capital partners st) /\
  view (return_of_capital partners st) =
    Cents.return_of_capital partners (cents_dict (proceeds st)) (cents (remaining st)).
Proof.
  induction partners as [|p ps IH]; intros st M HM Hcaps [Hpr Hpd] Hb.
  - simpl. split; [split; assumption | reflexivity].
  - inversion Hcaps as [|? ? [Hcp Hcl] Hrest]; subst.
    cbn [return_of_capital Cents.return_of_capital].
    rewrite (leb_cents _ _ Hpr penny_zero), cents_zero.
    destruct (Z.leb_spec (cents (remaining st)) 0) as [Er|Er].
    { split; [split; assumption | reflexivity]. }
    destruct (get_default_view (proceeds st) (partner_id p) Hpd) as [Gx Gc].
    destruct Hb as [[Hr0 HrM] Hall]. cbn [view fst snd] in *.
    assert (Hx : 0 <= get_default (cents_dict (proceeds st)) (partner_id p) 0
                 /\ get_default (cents_dict (proceeds st)) (partner_id p) 0
                    + cents (remaining st) <= M).
    { apply (get_default_bounded
               (fun v => 0 <= v /\ v + cents (remaining st) <= M)); [assumption | lia]. }
    pose proof money_limit_lt as HL.
    destruct (sub_cents (capital_contributed p)
                (get_default (proceeds st) (partner_id p) zero) Hcp Gx) as [S1 S2].
    { rewrite Gc. lia. }
    rewrite Gc in S2.
    rewrite (ltb_cents _ _ penny_zero S1), cents_zero, S2.
    unfold Cents.capital.
    set (u := cents (capital_contributed p)
              - get_default (cents_dict (proceeds st)) (partner_id p) 0) in *.
    destruct (Z.ltb_spec 0 u) as [Eu|Eu].
    + destruct (min_cents _ _ S1 Hpr) as [M1 M2]. rewrite S2 in M2. fold u in M2.
      set (d := min (sub (capital_contributed p)
                      (get_default (proceeds st) (partner_id p) zero)) (remaining st)) in *.
      destruct (iadd_view (proceeds st) (partner_id p) d Hpd M1) as [I1 I2].
      { eapply Forall_impl; [|exact Hall]. cbv beta. intros kv [? ?]. rewrite M2. lia. }
      destruct (sub_cents (remaining st) d Hpr M1) as [R1 R2].
      { rewrite M2. lia. }
      rewrite M2 in I2, R2.
      set (st' := {| proceeds := iadd (proceeds st) (partner_id p) d;
                     remaining := sub (remaining st) d |}).
      destruct (IH st' M HM Hrest) as [P V].
      * split; assumption.
      * unfold view, st'. cbn [proceeds remaining]. rewrite I2, R2.
        apply cents_iadd_bounded; [split; [split|]; assumption | lia].
      * split; [exact P|]. rewrite V. unfold st'. cbn [proceeds remaining].
        rewrite I2, R2. reflexivity.
    + apply (IH st M HM Hrest); [split; assumption | split; [split|]; assumption].
Qed.

Lemma cents_dict_keys d : keys (cents_dict d) = keys d.
Proof. unfold keys, cents_dict. rewrite map_map. reflexivity. Qed.

Lemma cents_return_of_capital_invariant partners : forall m r M T,
  Cents.bounded M (m, r) -> Cents.total m + r = T ->
  Forall (fun p => In (partner_id p) (keys m)) partners ->
  Cents.bounded M (Cents.return_of_capital partners m r) /\
  Cents.total (fst (Cents.return_of_capital partners m r))
    + snd (Cents.return_of_capital partners m r) = T /\
  keys (fst (Cents.return_of_capital partners m r)) = keys m.
Proof.
  induction partners as [|p ps IH]; intros m r M T Hb Ht Hk; simpl.
  - auto.
  - inversion Hk as [|? ? Hin Hrest]; subst.
    destruct (Z.leb_spec r 0); [simpl; auto|].
    assert (Hx : 0 <= get_default m (partner_id p) 0 /\
                 get_default m (partner_id p) 0 + r <= M).
    { destruct Hb as [Hr Hall]. cbn [fst snd] in Hr, Hall.
      apply (get_default_bounded (fun v => 0 <= v /\ v + r <= M) m _ Hall). lia. }
    destruct (Z.ltb_spec 0 (Cents.capital p - get_default m (partner_id p) 0)).
    + set (d := Z.min (Cents.capital p - get_default m (partner_id p) 0) r).
      destruct (IH (Cents.iadd m (partner_id p) d) (r - d) M
                  (Cents.total m + r)) as (B & C & K).
      * apply cents_iadd_bounded; [assumption | unfold d; lia].
      * rewrite cents_iadd_total by assumption. lia.
      * rewrite cents_iadd_keys. assumption.
      * rewrite cents_iadd_keys in K. auto.
    + apply IH; auto.
Qed.

Lemma update_all_quantize_view mode d :
  penny_dict d ->
  Forall (fun kv => Z.abs (snd kv) < 10 ^ prec) (cents_dict d) ->
  update_all (quantize mode) d
  = Ok (map (fun kv => (fst kv, mkDec (snd kv) (-2))) (cents_dict d)).
Proof.
  unfold update_all. induction d as [|[k v] d IH]; intros Hp Hb; simpl.
  - reflexivity.
  - inversion Hp; subst. inversion Hb; subst. simpl in *.
    rewrite quantize_cents by assumption. simpl.
    rewrite IH by assumption. reflexivity.
Qed.

Lemma fold_add_cents l : forall acc,
  penny acc -> 0 <= cents acc ->
  Forall (fun d => penny d /\ 0 <= cents d) l ->
  cents acc + fold_right Z.add 0 (map cents l) < 10 ^ prec ->
  penny (fold_left add l acc) /\
  cents (fold_left add l acc) = cents acc + fold_right Z.add 0 (map cents l).
Proof.
  induction l as [|d l IH]; intros acc Ha Ha0 Hl Hlt;
    cbn [fold_left fold_right map] in *.
  - split; [assumption | lia].
  - inversion Hl as [|? ? [Hd Hd0] Hrest]; subst.
    assert (Hs : 0 <= fold_right Z.add 0 (map cents l)).
    { clear - Hrest. induction Hrest as [|? ? [? ?]]; cbn [fold_right map]; lia. }
    destruct (add_cents acc d Ha Hd) as [A1 A2]; [lia|].
    destruct (IH (add acc d) A1) as [I1 I2]; try assumption; try lia.
    split; [assumption | lia].
Qed.

Lemma rounded_values (m : dict Z) :
  map cents (values (map (fun kv => (fst kv, mkDec (snd kv) (-2))) m)) = values m.
Proof.
  unfold values. rewrite !map_map. apply map_ext. intros [k v]. simpl.
  unfold cents. simpl. lia.
Qed.

(** ** The manager's return-of-capital loop computes on cents *)

Lemma manager_return_of_capital_view partners : forall st M,
  M <= money_limit ->
  Forall (fun p => money (capital_contributed p)
                   /\ 0 <= cents (capital_contributed p)) partners ->
  penny_state st -> Cents.bounded M (view st) ->
  penny_state (CAM.return_of_capital partners st) /\
  view (CAM.return_of_capital partners st) =
    Cents.manager_return_of_capital partners
      (cents_dict (proceeds st)) (cents (remaining st)).
Proof.
  induction partners as [|p ps IH]; intros st M HM Hcaps [Hpr Hpd] Hb.
  - simpl. split; [split; assumption | reflexivity].
  - inversion Hcaps as [|? ? [[Hcp Hcl] Hc0] Hrest]; subst.
    cbn [CAM.return_of_capital Cents.manager_return_of_capital].
    destruct Hb as [[Hr0 HrM] Hall]. cbn [view fst snd] in *.
    pose proof money_limit_lt as HL.
    destruct (min_cents _ _ Hcp Hpr) as [M1 M2].
    set (d := min (capital_contributed p) (remaining st)) in *.
    destruct (iadd_view (proceeds st) (partner_id p) d Hpd M1) as [I1 I2].
    { eapply Forall_impl; [|exact Hall]. cbv beta. intros kv [? ?]. rewrite M2. lia. }
    destruct (sub_cents (remaining st) d Hpr M1) as [R1 R2].
    { rewrite M2. lia. }
    rewrite M2 in I2, R2.
    set (st' := {| proceeds := iadd (proceeds st) (partner_id p) d;
                   remaining := sub (remaining st) d |}).
    change (remaining st') with (sub (remaining st) d).
    rewrite (leb_cents _ _ R1 penny_zero), cents_zero, R2.
    unfold Cents.capital.
    destruct (Z.leb_spec (cents (remaining st)
                          - Z.min (cents (capital_contributed p)) (cents (remaining st))) 0).
    + split; [split; assumption|]. unfold view, st'. cbn [proceeds remaining].
      rewrite I2, R2. reflexivity.
    + destruct (IH st' M HM Hrest) as [P V].
      * split; assumption.
      * unfold view, st'. cbn [proceeds remaining]. rewrite I2, R2.
        apply cents_iadd_bounded; [split; [split|]; assumption | lia].
      * split; [exact P|]. rewrite V. unfold st'. cbn [proceeds remaining].
        rewrite I2, R2. reflexivity.
Qed.

Lemma cents_manager_return_of_capital_invariant partners : forall m r M T,
  Cents.bounded M (m, r) -> Cents.total m + r = T ->
  Forall (fun p => In (partner_id p) (keys m) /\ 0 <= Cents.capital p) partners ->
  Cents.bounded M (Cents.manager_return_of_capital partners m r) /\
  Cents.total (fst (Cents.manager_return_of_capital partners m r))
    + snd (Cents.manager_return_of_capital partners m r) = T /\
  keys (fst (Cents.manager_return_of_capital partners m r)) = keys m.
Proof.
  induction partners as [|p ps IH]; intros m r M T Hb Ht Hk; simpl.
  - auto.
  - inversion Hk as [|? ? [Hin Hc0] Hrest]; subst.
    set (d := Z.min (Cents.capital p) r).
    assert (Hr : 0 <= r) by (destruct Hb as [[? ?] _]; assumption).
    assert (B : Cents.bounded M (Cents.iadd m (partner_id p) d, r - d)).
    { apply cents_iadd_bounded; [assumption | unfold d; lia]. }
    assert (C : Cents.total (Cents.iadd m (partner_id p) d) + (r - d)
                = Cents.total m + r).
    { rewrite cents_iadd_total by assumption. lia. }
    destruct (Z.leb_spec (r - d) 0).
    + cbn [fst snd]. rewrite cents_iadd_keys. auto.
    + destruct (IH (Cents.iadd m (partner_id p) d) (r - d) M
                  (Cents.total m + r) B C) as (B' & C' & K).
      * eapply Forall_impl; [|exact Hrest]. cbv beta.
        intros q [? ?]. rewrite cents_iadd_keys. auto.
      * rewrite cents_iadd_keys in K. auto.
Qed.

(** ** The initial dictionary *)

Lemma set_keys_same {V} (d : dict V) k v : In k (keys (Dict.set d k v)).
Proof.
  induction d as [|[k' v'] d IH]; simpl; [auto|].
  destruct (String.eqb_spec k' k); simpl; auto.
Qed.

Lemma set_keys_mono {V} (d : dict V) k v k' :
  In k' (keys d) -> In k' (keys (Dict.set d k v)).
Proof.
  induction d as [|[k0 v0] d IH]; simpl; [tauto|].
  intros [<-|Hin]; destruct (String.eqb k0 k); simpl; auto.
Qed.

Lemma set_all {V} (P : V -> Prop) (d : dict V) k v :
  Forall (fun kv => P (snd kv)) d -> P v ->
  Forall (fun kv => P (snd kv)) (Dict.set d k v).
Proof.
  intros Hd Hv. induction d as [|[k0 v0] d IH]; simpl.
  - constructor; [assumption | constructor].
  - inversion Hd; subst. destruct (String.eqb k0 k); constructor; auto.
Qed.

Lemma zero_dict_from partners : forall acc,
  Forall (fun kv => snd kv = zero) acc ->
  let d := fold_left (fun d p => Dict.set d (partner_id p) zero) partners acc in
  Forall (fun kv => snd kv = zero) d /\
  Forall (fun p => In (partner_id p) (keys d)) partners /\
  (forall k, In k (keys acc) -> In k (keys d)).
Proof.
  induction partners as [|p ps IH]; intros acc Hacc; simpl.
  - auto.
  - destruct (IH (Dict.set acc (partner_id p) zero)) as (A & B & C).
    { apply (set_all (fun v => v = zero)); auto. }
    split; [exact A|]. split.
    + constructor; [|exact B]. apply C, set_keys_same.
    + intros k Hk. apply C, set_keys_mono, Hk.
Qed.

Lemma zero_dict_spec partners :
  Forall (fun kv => snd kv = zero) (zero_dict partners) /\
  Forall (fun p => In (partner_id p) (keys (zero_dict partners))) partners.
Proof.
  destruct (zero_dict_from partners [] (Forall_nil _)) as (A & B & _). auto.
Qed.

Lemma all_zero_view d :
  Forall (fun kv => snd kv = zero) d ->
  penny_dict d /\ Forall (fun kv => snd kv = 0) (cents_dict d).
Proof.
  induction 1 as [|[k v] d Hv Hd [IH1 IH2]]; simpl in *.
  - split; constructor.
  - subst. split; constructor; auto. apply penny_zero.
Qed.

Lemma all_zero_total (m : dict Z) :
  Forall (fun kv => snd kv = 0) m -> Cents.total m = 0.
Proof.
  unfold Cents.total. induction 1 as [|[k v] m Hv Hm IH]; simpl in *; lia.
Qed.

Lemma initial_state_conserving total partners :
  penny total -> 0 <= cents total ->
  conserving (cents total) (cents total) partners (initial_state total partners).
Proof.
  intros Hp H0. destruct (zero_dict_spec partners) as [Z1 Z2].
  destruct (all_zero_view _ Z1) as [V1 V2].
  unfold conserving, initial_state, penny_state, view, Cents.bounded.
  cbn [proceeds remaining fst snd].
  split; [split; assumption|]. split; [split; [lia|]|].
  - eapply Forall_impl; [|exact V2]. cbv beta. intros kv ->. lia.
  - split; [|assumption]. rewrite all_zero_total by assumption. lia.
Qed.

(** ** Conservation on return-of-capital waterfalls *)

Lemma return_of_capital_conserving T M partners st :
  M <= money_limit ->
  Forall (fun p => money (capital_contributed p)) partners ->
  conserving T M partners st ->
  conserving T M partners (return_of_capital partners st).
Proof.
  intros HM Hcaps (Hp & Hb & Ht & Hk).
  destruct (return_of_capital_view partners st M HM Hcaps Hp Hb) as [P V].
  destruct (cents_return_of_capital_invariant partners
              (cents_dict (proceeds st)) (cents (remaining st)) M T Hb Ht)
    as (B & C & K).
  { eapply Forall_impl; [|exact Hk]. cbv beta. intros q Hq.
    now rewrite cents_dict_keys. }
  rewrite <- V in B, C, K. unfold conserving.
  split; [exact P|]. split; [exact B|]. split; [exact C|].
  cbn [view fst] in K. rewrite !cents_dict_keys in K. rewrite K. exact Hk.
Qed.

Lemma manager_return_of_capital_conserving T M partners st :
  M <= money_limit ->
  Forall (fun p => money (capital_contributed p)
                   /\ 0 <= cents (capital_contributed p)) partners ->
  conserving T M partners st ->
  conserving T M partners (CAM.return_of_capital partners st).
Proof.
  intros HM Hcaps (Hp & Hb & Ht & Hk).
  destruct (manager_return_of_capital_view partners st M HM Hcaps Hp Hb) as [P V].
  destruct (cents_manager_return_of_capital_invariant partners
              (cents_dict (proceeds st)) (cents (remaining st)) M T Hb Ht)
    as (B & C & K).
  { rewrite Forall_forall in *. intros q Hq. split.
    - rewrite cents_dict_keys. auto.
    - apply Hcaps. assumption. }
  rewrite <- V in B, C, K. unfold conserving.
  split; [exact P|]. split; [exact B|]. split; [exact C|].
  cbn [view fst] in K. rewrite !cents_dict_keys in K. rewrite K. exact Hk.
Qed.

Lemma Forall_firstn {A} (P : A -> Prop) (l : list A) k :
  Forall P l -> Forall P (firstn k l).
Proof.
  revert k. induction l as [|a l IH]; intros [|k] H; simpl; try constructor.
  - inversion H; assumption.
  - inversion H; auto.
Qed.

Lemma run_waterfall_conserving T M partners steps : forall st,
  M <= money_limit ->
  Forall (fun p => money (capital_contributed p)) partners ->
  Forall (fun s => step_type s = "return_of_capital"%string) steps ->
  conserving T M partners st ->
  exists st', run_waterfall partners steps st = Ok st'
              /\ conserving T M partners st'.
Proof.
  induction steps as [|s steps IH]; intros st HM Hcaps Hsteps Hc; simpl.
  - eauto.
  - inversion Hsteps as [|? ? Hs Hrest]; subst.
    destruct (leb (remaining st) zero); [eauto|].
    unfold run_step. rewrite Hs. simpl.
    apply IH; auto using return_of_capital_conserving.
Qed.

Lemma manager_run_waterfall_conserving T M partners steps : forall st,
  M <= money_limit ->
  Forall (fun p => money (capital_contributed p)
                   /\ 0 <= cents (capital_contributed p)) partners ->
  Forall (fun s => step_type s = "return_of_capital"%string) steps ->
  conserving T M partners st ->
  exists st', CAM.run_waterfall partners steps st = Ok st'
              /\ conserving T M partners st'.
Proof.
  induction steps as [|s steps IH]; intros st HM Hcaps Hsteps Hc; simpl.
  - eauto.
  - inversion Hsteps as [|? ? Hs Hrest]; subst.
    unfold CAM.run_step. rewrite Hs. simpl.
    pose proof (manager_return_of_capital_conserving T M partners st HM Hcaps Hc).
    destruct (leb (remaining (CAM.return_of_capital partners st)) zero); eauto.
Qed.

Lemma nonneg_le_total (m : dict Z) :
  Forall (fun kv => 0 <= snd kv) m ->
  0 <= Cents.total m /\ Forall (fun kv => snd kv <= Cents.total m) m.
Proof.
  unfold Cents.total. induction 1 as [|[k v] m Hv Hm [IH1 IH2]]; simpl in *.
  - split; [lia | constructor].
  - split; [lia|]. constructor; [simpl; lia|].
    eapply Forall_impl; [|exact IH2]. cbv beta. intros; lia.
Qed.

Lemma cents_dict_values d : map cents (values d) = values (cents_dict d).
Proof. unfold values, cents_dict. rewrite !map_map. reflexivity. Qed.

Lemma sum_cents l :
  Forall (fun d => penny d /\ 0 <= cents d) l ->
  fold_right Z.add 0 (map cents l) < 10 ^ prec ->
  penny (sum l) /\ cents (sum l) = fold_right Z.add 0 (map cents l).
Proof.
  intros Hl Hlt. unfold sum.
  destruct (fold_add_cents l zero penny_zero) as [A B]; rewrite ?cents_zero;
    try assumption; try lia.
  split; [assumption|]. rewrite B, cents_zero. lia.
Qed.

Lemma conservation_check_raw total st :
  money total -> penny_state st ->
  Forall (fun kv => 0 <= snd kv) (cents_dict (proceeds st)) ->
  Cents.total (cents_dict (proceeds st)) <= money_limit ->
  Cents.total (cents_dict (proceeds st)) + cents (remaining st) = cents total ->
  eqb (add (sum (values (proceeds st))) (remaining st)) total = true.
Proof.
  intros [Ht Htl] [Hr Hd] Hnn Hle Hsum.
  pose proof money_limit_lt as HL.
  assert (HM : 0 < money_limit) by (vm_compute; reflexivity).
  destruct (sum_cents (values (proceeds st))) as [S1 S2].
  { unfold values, penny_dict, cents_dict in *. rewrite Forall_map in *.
    rewrite Forall_forall in *. intros kv Hin. split; [apply Hd | apply Hnn]; assumption. }
  { rewrite cents_dict_values. fold (Cents.total (cents_dict (proceeds st))). lia. }
  rewrite cents_dict_values in S2. fold (Cents.total (cents_dict (proceeds st))) in S2.
  destruct (add_cents _ _ S1 Hr) as [A1 A2]; [rewrite S2; lia|].
  rewrite (eqb_cents _ _ A1 Ht), A2, S2. apply Z.eqb_eq. exact Hsum.
Qed.

Lemma cents_dict_rounded (m : dict Z) :
  cents_dict (map (fun kv => (fst kv, mkDec (snd kv) (-2))) m) = m.
Proof.
  induction m as [|[k v] m IH]; [reflexivity|].
  cbn [map cents_dict fst snd] in *. unfold cents_dict in IH. rewrite IH.
  unfold cents. cbn [coef dexp]. change (-2 + 2) with 0.
  rewrite Z.pow_0_r, Z.mul_1_r. reflexivity.
Qed.

Lemma penny_dict_rounded (m : dict Z) :
  penny_dict (map (fun kv => (fst kv, mkDec (snd kv) (-2))) m).
Proof.
  unfold penny_dict. apply Forall_forall. intros kv Hin.
  apply in_map_iff in Hin. destruct Hin as (x & <- & _).
  unfold penny. simpl. lia.
Qed.

Lemma conservation_check_rounded total st :
  money total -> penny_state st ->
  Forall (fun kv => 0 <= snd kv) (cents_dict (proceeds st)) ->
  Cents.total (cents_dict (proceeds st)) <= money_limit ->
  Cents.total (cents_dict (proceeds st)) + cents (remaining st) = cents total ->
  exists rounded,
    update_all (quantize ROUND_HALF_UP) (proceeds st) = Ok rounded /\
    eqb (add (sum (values rounded)) (remaining st)) total = true.
Proof.
  intros Hm [Hr Hd] Hnn Hle Hsum.
  pose proof money_limit_lt as HL.
  assert (HM : 0 < money_limit) by (vm_compute; reflexivity).
  destruct (nonneg_le_total _ Hnn) as [T0 Tle].
  exists (map (fun kv => (fst kv, mkDec (snd kv) (-2))) (cents_dict (proceeds st))).
  split.
  - apply update_all_quantize_view; [assumption|].
    rewrite Forall_forall in *. intros kv Hin.
    specialize (Hnn kv Hin). specialize (Tle kv Hin). cbv beta in *. lia.
  - apply (conservation_check_raw total
             {| proceeds := map (fun kv => (fst kv, mkDec (snd kv) (-2)))
                                (cents_dict (proceeds st));
                remaining := remaining st |});
      cbn [proceeds remaining]; rewrite ?cents_dict_rounded; try assumption.
    split; [assumption | apply penny_dict_rounded].
Qed.

Lemma conserving_facts T partners st :
  conserving T T partners st -> T <= money_limit ->
  penny_state st /\
  Forall (fun kv => 0 <= snd kv) (cents_dict (proceeds st)) /\
  Cents.total (cents_dict (proceeds st)) <= money_limit /\
  Cents.total (cents_dict (proceeds st)) + cents (remaining st) = T.
Proof.
  intros (Hp & [[Hr0 HrM] Hall] & Ht & _) HM. cbn [view fst snd] in *.
  split; [assumption|]. split; [|split; [lia | assumption]].
  eapply Forall_impl; [|exact Hall]. cbv beta. intros kv [? ?]. assumption.
Qed.

(** ** C1: conservation of proceeds *)

(** C1, counterexample.  100.00 over a single pro_rata step and three equal
    owners: each share is 100 * 0.3333333333333333333333333333 and rounds to
    33.33; the pool is set to zero, and 99.99 + 0 is not 100. *)
Lemma C1_counterexample :
  run_waterfall three_equal_partners [step "pro_rata"]
    (initial_state (dollars 100) three_equal_partners)
  = Ok {| proceeds := [("A", mkDec 3333333333333333333333333333 (-26));
                       ("B", mkDec 3333333333333333333333333333 (-26));
                       ("C", mkDec 3333333333333333333333333333 (-26))];
          remaining := zero |}
  /\ calculate_liquidation_proceeds (dollars 100) [step "pro_rata"]
       three_equal_partners
     = Ok [("A", mkDec 3333 (-2)); ("B", mkDec 3333 (-2)); ("C", mkDec 3333 (-2))]
  /\ add (sum [mkDec 3333 (-2); mkDec 3333 (-2); mkDec 3333 (-2)]) zero
     = mkDec 9999 (-2)
  /\ eqb (add (sum [mkDec 3333 (-2); mkDec 3333 (-2); mkDec 3333 (-2)]) zero)
         (dollars 100) = false.
Proof. vm_compute. repeat split; reflexivity. Qed.

(** C1, as amended.  For whole-cent amounts and a waterfall made of
    return_of_capital steps only, at every step boundary (after any number
    [k] of steps) the rounded per-partner amounts of
    [calculate_liquidation_proceeds] plus the pool equal [total_proceeds];
    and so do the per-partner amounts and the remaining proceeds returned by
    [_model_liquidation_distribution] when the proceeds and the capital
    contributions are not negative. *)
Theorem C1_conservation_on_return_of_capital
    (total_proceeds : Decimal) (steps : list Step) (partners : list Partner)
    (k : nat) :
  money total_proceeds ->
  Forall (fun p => money (capital_contributed p)) partners ->
  Forall (fun s => step_type s = "return_of_capital"%string) steps ->
  (exists st rounded,
      run_waterfall partners (firstn k steps)
        (initial_state total_proceeds partners) = Ok st /\
      calculate_liquidation_proceeds total_proceeds (firstn k steps) partners
        = Ok rounded /\
      eqb (add (sum (values rounded)) (remaining st)) total_proceeds = true)
  /\
  (0 <= cents total_proceeds ->
   Forall (fun p => 0 <= cents (capital_contributed p)) partners ->
   forall terms, distribution_waterfall terms = firstn k steps ->
   exists analysis,
      CAM._model_liquidation_distribution partners terms total_proceeds
        = Ok analysis /\
      eqb (add (sum (values (CAM.partner_distributions analysis)))
               (CAM.remaining_proceeds analysis)) total_proceeds = true).
Proof.
  intros Hm Hcaps Hsteps.
  assert (Hk := Forall_firstn _ _ k Hsteps).
  destruct Hm as [Hp Hl].
  split.
  - destruct (Z_lt_le_dec (cents total_proceeds) 0) as [Hneg|Hpos].
    + (* nothing is distributed out of negative proceeds *)
      assert (Hrun : run_waterfall partners (firstn k steps)
                       (initial_state total_proceeds partners)
                     = Ok (initial_state total_proceeds partners)).
      { destruct (firstn k steps); [reflexivity|]. simpl.
        rewrite (leb_cents _ _ Hp penny_zero), cents_zero.
        destruct (Z.leb_spec (cents total_proceeds) 0); [reflexivity | lia]. }
      destruct (zero_dict_spec partners) as [Z1 _].
      destruct (all_zero_view _ Z1) as [V1 V2].
      destruct (conservation_check_rounded total_proceeds
                  (initial_state total_proceeds partners)) as (rounded & R1 & R2);
        cbn [initial_state proceeds remaining]; try (split; assumption).
      * eapply Forall_impl; [|exact V2]. cbv beta. intros kv ->. lia.
      * rewrite all_zero_total by assumption. vm_compute. discriminate.
      * rewrite all_zero_total by assumption. lia.
      * exists (initial_state total_proceeds partners), rounded.
        split; [exact Hrun|]. split; [|exact R2].
        unfold calculate_liquidation_proceeds. rewrite Hrun. exact R1.
    + assert (HT : cents total_proceeds <= money_limit) by lia.
      destruct (run_waterfall_conserving (cents total_proceeds) (cents total_proceeds)
                  partners (firstn k steps) (initial_state total_proceeds partners)
                  HT Hcaps Hk (initial_state_conserving _ _ Hp Hpos))
        as (st & Hrun & Hc).
      destruct (conserving_facts _ _ _ Hc HT) as (F1 & F2 & F3 & F4).
      destruct (conservation_check_rounded total_proceeds st)
        as (rounded & R1 & R2); try assumption; [split; assumption|].
      exists st, rounded. split; [exact Hrun|]. split; [|exact R2].
      unfold calculate_liquidation_proceeds. rewrite Hrun. exact R1.
  - intros Hpos Hnn terms Hterms.
    assert (HT : cents total_proceeds <= money_limit) by lia.
    assert (Hcaps' : Forall (fun p => money (capital_contributed p)
                                      /\ 0 <= cents (capital_contributed p)) partners).
    { rewrite Forall_forall in *. auto. }
    destruct (manager_run_waterfall_conserving (cents total_proceeds)
                (cents total_proceeds) partners (firstn k steps)
                (initial_state total_proceeds partners)
                HT Hcaps' Hk (initial_state_conserving _ _ Hp Hpos))
      as (st & Hrun & Hc).
    destruct (conserving_facts _ _ _ Hc HT) as (F1 & F2 & F3 & F4).
    unfold CAM._model_liquidation_distribution. rewrite Hterms.
    unfold initial_state in Hrun. rewrite Hrun. cbn [bind].
    eexists. split; [reflexivity|]. cbn [CAM.partner_distributions CAM.remaining_proceeds].
    apply conservation_check_raw; try assumption. split; assumption.
Qed.

(** ** C5: zero or negative proceeds *)

(** The standalone waterfall distributes nothing out of proceeds that are
    zero or negative: no step runs, and every partner is returned 0.00. *)
Lemma calculate_liquidation_proceeds_degenerate total_proceeds steps partners :
  leb total_proceeds zero = true ->
  calculate_liquidation_proceeds total_proceeds steps partners
  = Ok (map (fun kv => (fst kv, mkDec 0 (-2))) (zero_dict partners)).
Proof.
  intros Hle. unfold calculate_liquidation_proceeds.
  assert (Hrun : run_waterfall partners steps (initial_state total_proceeds partners)
                 = Ok (initial_state total_proceeds partners)).
  { destruct steps; [reflexivity|]. simpl. now rewrite Hle. }
  rewrite Hrun. cbn [bind initial_state proceeds].
  destruct (zero_dict_spec partners) as [Hz _].
  unfold update_all. induction Hz as [|[k v] d Hv Hd IH]; [reflexivity|].
  simpl in Hv. subst v. cbn [mapM map fst snd]. rewrite IH. reflexivity.
Qed.

(** C5, the failing input.  The manager's waterfall tests the pool only
    after a step has run: with proceeds of -100 a return_of_capital step
    hands min(50, -100) = -100 to partner A. *)
Lemma C5_manager_distributes_negative_proceeds :
  CAM._model_liquidation_distribution (sole_partner (dollars 50))
    (mkAgreement false false [step "return_of_capital"]) (dollars (-100))
  = Ok {| CAM.total_proceeds := dollars (-100);
          CAM.partner_distributions := [("A", dollars (-100))];
          CAM.waterfall_steps_processed := 1;
          CAM.remaining_proceeds := zero |}
  /\ calculate_liquidation_proceeds (dollars (-100)) [step "return_of_capital"]
       (sole_partner (dollars 50))
     = Ok [("A", mkDec 0 (-2))].
Proof. vm_compute. split; reflexivity. Qed.

(** ** C3: the true-up and net income *)

(** C3, the failing input.  Raw allocations of 1.00 for three partners and a
    net income of 10: the factor is 10 / 3.00, every allocation becomes
    3.33, and the total is 9.99, in both solvers. *)
Lemma C3_true_up_misses_net_income :
  calculate_target_allocations three_equal_partners (dollars 10) one_dollar_each []
  = Ok ([("A", mkDec 333 (-2)); ("B", mkDec 333 (-2)); ("C", mkDec 333 (-2))],
        [WarnTotalMismatch (mkDec 300 (-2)) (dollars 10)])
  /\ CAM._calculate_required_allocations three_equal_partners one_dollar_each
       (dollars 10)
     = Ok ([("A", mkDec 333 (-2)); ("B", mkDec 333 (-2)); ("C", mkDec 333 (-2))],
           [WarnTotalMismatch (mkDec 300 (-2)) (dollars 10)])
  /\ sum [mkDec 333 (-2); mkDec 333 (-2); mkDec 333 (-2)] = mkDec 999 (-2)
  /\ quantize ROUND_HALF_UP (dollars 10) = Ok (mkDec 1000 (-2))
  /\ eqb (mkDec 999 (-2)) (dollars 10) = false.
Proof. vm_compute. repeat split; reflexivity. Qed.

(** ** C2: reconciliation *)

Lemma eqb_zero_false a : eqb a zero = false -> coef a <> 0.
Proof.
  intros H Hz. unfold eqb, compare, align in H. rewrite Hz in H.
  simpl in H. discriminate.
Qed.

(** [div] raises on a zero divisor only (its quotient may have any
    exponent). *)
Lemma div_ok a b : coef b <> 0 -> exists q, div a b = Ok q.
Proof.
  intros Hb. unfold div.
  destruct (Z.eqb_spec (coef b) 0); [contradiction|].
  destruct (coef a =? 0); [eauto|].
  cbv zeta.
  match goal with |- context [if ?c then _ else _] => destruct c end.
  - match goal with |- context [strip_zeros ?f ?q ?e] =>
      destruct (strip_zeros f q e) end. eauto.
  - eauto.
Qed.

(** C2, counterexample.  A raw total of 100.00 against a net income of 50
    is a discrepancy of 50; no error is raised: both solvers return the
    rescaled allocation with a logged warning.  With a raw total of zero the
    standalone solver returns the raw allocation unchanged, again without an
    error. *)
Lemma C2_counterexample :
  ltb one_cent (abs (sub (mkDec 10000 (-2)) (dollars 50))) = true
  /\ calculate_target_allocations (sole_partner zero) (dollars 50)
       [("A", dollars 100)] []
     = Ok ([("A", mkDec 5000 (-2))],
           [WarnTotalMismatch (mkDec 10000 (-2)) (dollars 50)])
  /\ CAM._calculate_required_allocations (sole_partner zero)
       [("A", dollars 100)] (dollars 50)
     = Ok ([("A", mkDec 5000 (-2))],
           [WarnTotalMismatch (mkDec 10000 (-2)) (dollars 50)])
  /\ calculate_target_allocations (sole_partner zero) (dollars 50)
       [("A", dollars 100)] [("A", dollars 100)]
     = Ok ([("A", mkDec 0 (-2))],
           [WarnTotalMismatch (mkDec 0 (-2)) (dollars 50)]).
Proof. vm_compute. repeat split; reflexivity. Qed.

Lemma quantize_raise mode d e : quantize mode d = Raise e -> e = InvalidOperation.
Proof.
  unfold quantize.
  repeat match goal with |- context [if ?c then _ else _] => destruct c end;
    intros H; inversion H; reflexivity.
Qed.

Lemma update_all_rescale_raise mode factor (d : dict Decimal) e :
  update_all (fun a => quantize mode (mul a factor)) d = Raise e ->
  e = InvalidOperation.
Proof.
  unfold update_all. induction d as [|[k v] d IH]; simpl; [discriminate|].
  destruct (quantize mode (mul v factor)) eqn:Q; cbn [bind].
  - destruct (mapM _ d) eqn:M; cbn [bind]; [discriminate|].
    intros H. inversion H; subst. apply IH. reflexivity.
  - intros H. inversion H; subst. eapply quantize_raise; eassumption.
Qed.

(** C2, as amended.  Neither solver has a reconciliation error or a true-up
    flag.  For a net income in whole cents within [money_limit] (the raw
    total is a sum of rounded amounts, so no exponent of the division comes
    near the limits of the context), once the raw allocations are computed:
    within one cent of net income they are returned as they are; beyond it
    a warning is logged and, when the raw total is not zero, the division
    succeeds and every allocation is rescaled and re-rounded, the solver
    returning the rescaled allocations with the warning unless a re-rounding
    raises InvalidOperation, the only exception left to it; when the raw
    total is zero nothing is divided and the raw allocations are returned
    with the warning. *)
Theorem C2_reconciliation_logs_and_rescales
    (partners : list Partner) (net_income : Decimal)
    (liquidation_proceeds current_balances target_balances : dict Decimal)
    (raw raw_m : dict Decimal) :
  money net_income ->
  TaxCalculations.raw_allocations partners liquidation_proceeds current_balances []
    = Ok raw ->
  CAM.raw_allocations partners target_balances [] = Ok raw_m ->
  let total := sum (values raw) in
  let total_m := sum (values raw_m) in
  let solve := calculate_target_allocations partners net_income
                 liquidation_proceeds current_balances in
  let solve_m := CAM._calculate_required_allocations partners target_balances
                   net_income in
  (if ltb one_cent (abs (sub total net_income)) then
     if eqb total zero
     then solve = Ok (raw, [WarnTotalMismatch total net_income])
     else exists factor, div net_income total = Ok factor /\
          solve = (adjusted <-
                     update_all (fun a => quantize ROUND_HALF_UP (mul a factor)) raw ;;
                   Ok (adjusted, [WarnTotalMismatch total net_income]))
          /\ forall e, solve = Raise e -> e = InvalidOperation
   else solve = Ok (raw, []))
  /\
  (if ltb CAM.precision (abs (sub total_m net_income)) then
     if eqb total_m zero
     then solve_m = Ok (raw_m, [WarnTotalMismatch total_m net_income])
     else exists factor, div net_income total_m = Ok factor /\
          solve_m = (adjusted <-
                       update_all (fun a => quantize ROUND_HALF_EVEN (mul a factor)) raw_m ;;
                     Ok (adjusted, [WarnTotalMismatch total_m net_income]))
          /\ forall e, solve_m = Raise e -> e = InvalidOperation
   else solve_m = Ok (raw_m, [])).
Proof.
  intros _ Hraw Hraw_m. cbv zeta.
  unfold calculate_target_allocations, CAM._calculate_required_allocations.
  rewrite Hraw, Hraw_m. cbn [bind]. split.
  - destruct (ltb one_cent _); [|reflexivity].
    destruct (eqb (sum (values raw)) zero) eqn:E; [reflexivity|].
    destruct (div_ok net_income _ (eqb_zero_false _ E)) as [q Hq].
    exists q. split; [exact Hq|]. cbn [negb]. rewrite Hq. cbn [bind].
    split; [reflexivity|]. intros e.
    destruct (update_all _ raw) eqn:U; cbn [bind]; [discriminate|].
    intros H. inversion H; subst. eapply update_all_rescale_raise; eassumption.
  - destruct (ltb CAM.precision _); [|reflexivity].
    destruct (eqb (sum (values raw_m)) zero) eqn:E; [reflexivity|].
    destruct (div_ok net_income _ (eqb_zero_false _ E)) as [q Hq].
    exists q. split; [exact Hq|]. cbn [negb]. rewrite Hq. cbn [bind].
    split; [reflexivity|]. intros e.
    destruct (update_all _ raw_m) eqn:U; cbn [bind]; [discriminate|].
    intros H. inversion H; subst. eapply update_all_rescale_raise; eassumption.
Qed.

(** ** C8: basis step-up *)

Lemma get_set_same {V} (d : dict V) k v : get (Dict.set d k v) k = Some v.
Proof.
  induction d as [|[k' v'] d IH]; simpl.
  - now rewrite String.eqb_refl.
  - destruct (String.eqb_spec k' k) as [->|Hne]; simpl.
    + now rewrite String.eqb_refl.
    + destruct (String.eqb_spec k' k); [contradiction | exact IH].
Qed.

Lemma get_set_other {V} (d : dict V) k v k' :
  k <> k' -> get (Dict.set d k v) k' = get d k'.
Proof.
  intros Hne. induction d as [|[k0 v0] d IH]; simpl.
  - destruct (String.eqb_spec k k'); [contradiction | reflexivity].
  - destruct (String.eqb_spec k0 k) as [->|Hk]; simpl.
    + destruct (String.eqb_spec k k'); [contradiction | reflexivity].
    + destruct (String.eqb k0 k'); [reflexivity | exact IH].
Qed.

Lemma ltb_zero_coef a : ltb zero a = true -> coef a <> 0.
Proof.
  intros H Hz. unfold ltb, compare, align in H. rewrite Hz in H.
  simpl in H. discriminate.
Qed.





(** ** C4: the return_of_capital step *)

Lemma round_drop_nonneg mode c k : 0 <= c -> 0 <= k -> 0 <= round_drop mode c k.
Proof.
  intros Hc Hk. unfold round_drop.
  assert (Hp : 0 < 10 ^ k) by (apply Z.pow_pos_nonneg; lia).
  assert (Hq : 0 <= Z.abs c / 10 ^ k) by (apply Z.div_pos; lia).
  assert (Hs : 0 <= Z.sgn c) by (destruct c; simpl; lia).
  apply Z.mul_nonneg_nonneg; [exact Hs|].
  match goal with |- context [if ?b then _ else _] => destruct b end; lia.
Qed.

Lemma fix_ctx_nonneg d : 0 <= coef d -> 0 <= coef (fix_ctx d).
Proof.
  intros H. unfold fix_ctx.
  destruct (Z.leb_spec (ndigits (Z.abs (coef d))) prec); [assumption|].
  assert (0 <= round_drop ROUND_HALF_EVEN (coef d) (ndigits (Z.abs (coef d)) - prec))
    by (apply round_drop_nonneg; lia).
  match goal with |- context [if ?b then _ else _] => destruct b end; cbn [coef].
  - apply Z.div_pos; lia.
  - assumption.
Qed.

Lemma compare_zero d : compare d zero = (coef d ?= 0).
Proof.
  unfold compare, align. cbn [coef dexp zero]. rewrite Z.mul_0_l.
  set (k := dexp d - Z.min (dexp d) 0).
  assert (0 < 10 ^ k) by (apply Z.pow_pos_nonneg; unfold k; lia).
  rewrite <- (Z.mul_0_l (10 ^ k)). symmetry. apply Zmult_compare_compat_r. lia.
Qed.

Lemma compare_antisym a b : compare a b = CompOpp (compare b a).
Proof. unfold compare. rewrite (Z.min_comm (dexp a)). apply Z.compare_antisym. Qed.

Lemma leb_min_pool u r : leb (min u r) r = true.
Proof.
  unfold min, ltb, leb. destruct (compare r u) eqn:E.
  - rewrite compare_antisym, E. reflexivity.
  - unfold compare. now rewrite Z.compare_refl.
  - rewrite compare_antisym, E. reflexivity.
Qed.

Lemma sub_nonneg a b : leb b a = true -> 0 <= coef (sub a b).
Proof.
  intros H. unfold sub, add. apply fix_ctx_nonneg. cbn [coef neg dexp].
  unfold leb, compare in H. rewrite (Z.min_comm (dexp b)) in H.
  set (e := Z.min (dexp a) (dexp b)) in *.
  unfold align in *. cbn [coef dexp neg].
  destruct (Z.compare_spec (coef b * 10 ^ (dexp b - e)) (coef a * 10 ^ (dexp a - e)));
    try discriminate; lia.
Qed.

Lemma leb_eqb_nonneg d : 0 <= coef d -> leb d zero = eqb d zero.
Proof.
  intros H. unfold leb, eqb. rewrite compare_zero.
  destruct (Z.compare_spec (coef d) 0); try reflexivity. lia.
Qed.

Lemma pool_after_pay st id u :
  leb (remaining (pay st id (min u (remaining st)))) zero
  = eqb (remaining (pay st id (min u (remaining st)))) zero.
Proof. apply leb_eqb_nonneg. cbn [pay remaining]. apply sub_nonneg, leb_min_pool. Qed.

Lemma positive_pool_not_exhausted r : ltb zero r = true -> leb r zero = false.
Proof.
  unfold ltb, leb. rewrite (compare_antisym r zero).
  destruct (compare zero r); simpl; congruence.
Qed.

Lemma positive_pool_not_zero r : ltb zero r = true -> eqb r zero = false.
Proof.
  unfold ltb, eqb. rewrite (compare_antisym r zero).
  destruct (compare zero r); simpl; congruence.
Qed.

Lemma pool_left_positive st id u :
  eqb (remaining (pay st id (min u (remaining st)))) zero = false ->
  ltb zero (remaining (pay st id (min u (remaining st)))) = true.
Proof.
  rewrite <- pool_after_pay. unfold leb, ltb.
  rewrite (compare_antisym zero). destruct (compare _ zero); simpl; congruence.
Qed.

Lemma return_of_capital_exhausted partners st :
  leb (remaining st) zero = true -> return_of_capital partners st = st.
Proof. intros H. destruct partners; simpl; [reflexivity | now rewrite H]. Qed.

(** C4, counterexample.  After a preferred return of 80.00 out of 5000, the
    standalone step returns 920.00 to partner A, not min(1000, 4920): it
    subtracts the preferred return as well.  And a second return_of_capital
    step of the manager hands A another 1000.00, although the first already
    returned the whole contribution. *)
Lemma C4_counterexample :
  let partners := sole_partner (dollars 1000) in
  let after_preferred :=
    {| proceeds := [("A", mkDec 8000 (-2))]; remaining := mkDec 492000 (-2) |} in
  let after_first :=
    {| proceeds := [("A", dollars 1000)]; remaining := dollars 4000 |} in
  run_waterfall partners [mkStep "preferred_return" (mkDec 8 (-2)) zero]
    (initial_state (dollars 5000) partners) = Ok after_preferred
  /\ return_of_capital partners after_preferred
     = {| proceeds := [("A", mkDec 100000 (-2))]; remaining := mkDec 400000 (-2) |}
  /\ spec_return_of_capital (due_in_category (zero_dict partners)) partners
       after_preferred
     = {| proceeds := [("A", mkDec 108000 (-2))]; remaining := mkDec 392000 (-2) |}
  /\ CAM.run_waterfall partners [step "return_of_capital"]
       (initial_state (dollars 5000) partners) = Ok after_first
  /\ CAM.return_of_capital partners after_first
     = {| proceeds := [("A", dollars 2000)]; remaining := dollars 3000 |}
  /\ spec_return_of_capital (due_in_category (proceeds after_first)) partners
       after_first
     = {| proceeds := [("A", dollars 1000)]; remaining := dollars 4000 |}.
Proof. vm_compute. repeat split; reflexivity. Qed.

(** C4, as amended.  Run on a pool that is not exhausted, the step of
    [calculate_liquidation_proceeds] is the specification's loop in which a
    partner is owed the capital contributed less everything distributed to
    that partner so far, by whatever step, and receives nothing when that is
    not positive.  The step of [_model_liquidation_distribution] is the
    specification's loop in which a partner is owed the capital contributed,
    with nothing subtracted. *)
Theorem C4_return_of_capital_step :
  (forall partners st,
      ltb zero (remaining st) = true ->
      return_of_capital partners st
      = spec_return_of_capital due_standalone partners st)
  /\ (forall partners st,
      CAM.return_of_capital partners st
      = spec_return_of_capital due_manager partners st).
Proof.
  split.
  - induction partners as [|p ps IH]; intros st Hpos; [reflexivity|].
    cbn [return_of_capital spec_return_of_capital].
    rewrite (positive_pool_not_exhausted _ Hpos).
    unfold due_standalone.
    destruct (ltb zero (sub (capital_contributed p)
                          (get_default (proceeds st) (partner_id p) zero))).
    + set (u := sub (capital_contributed p)
                  (get_default (proceeds st) (partner_id p) zero)).
      change {| proceeds := iadd (proceeds st) (partner_id p) (min u (remaining st));
                remaining := sub (remaining st) (min u (remaining st)) |}
        with (pay st (partner_id p) (min u (remaining st))).
      destruct (eqb (remaining (pay st (partner_id p) (min u (remaining st)))) zero)
        eqn:E.
      * apply return_of_capital_exhausted. rewrite pool_after_pay. exact E.
      * apply IH, pool_left_positive, E.
    + rewrite (positive_pool_not_zero _ Hpos). apply IH, Hpos.
  - induction partners as [|p ps IH]; intros st; [reflexivity|].
    cbn [CAM.return_of_capital spec_return_of_capital due_manager].
    change {| proceeds := iadd (proceeds st) (partner_id p)
                            (min (capital_contributed p) (remaining st));
              remaining := sub (remaining st)
                             (min (capital_contributed p) (remaining st)) |}
      with (pay st (partner_id p) (min (capital_contributed p) (remaining st))).
    rewrite pool_after_pay.
    destruct (eqb _ zero); [reflexivity | apply IH].
Qed.

(** ** The return-of-capital loops on cents: further facts *)

Lemma cents_return_of_capital_exhausted partners m r :
  r <= 0 -> Cents.return_of_capital partners m r = (m, r).
Proof.
  intros H. destruct partners; simpl; [reflexivity|].
  destruct (Z.leb_spec r 0); [reflexivity | lia].
Qed.

Lemma cents_return_of_capital_untouched k partners : forall m r,
  ~ In k (map partner_id partners) ->
  get_default (fst (Cents.return_of_capital partners m r)) k 0 = get_default m k 0.
Proof.
  induction partners as [|p ps IH]; intros m r Hk; simpl; [reflexivity|].
  simpl in Hk.
  destruct (r <=? 0); [reflexivity|].
  destruct (0 <? Cents.capital p - get_default m (partner_id p) 0).
  - rewrite IH by tauto. apply cents_iadd_get_other. tauto.
  - apply IH. tauto.
Qed.

Lemma cents_manager_return_of_capital_untouched k partners : forall m r,
  ~ In k (map partner_id partners) ->
  get_default (fst (Cents.manager_return_of_capital partners m r)) k 0
  = get_default m k 0.
Proof.
  induction partners as [|p ps IH]; intros m r Hk; simpl; [reflexivity|].
  simpl in Hk.
  destruct (r - Z.min (Cents.capital p) r <=? 0); cbn [fst].
  - apply cents_iadd_get_other. tauto.
  - rewrite IH by tauto. apply cents_iadd_get_other. tauto.
Qed.

Lemma cents_return_of_capital_monotone pre : forall m r p p' post,
  partner_id p' = partner_id p ->
  Cents.capital p <= Cents.capital p' ->
  ~ In (partner_id p) (map partner_id post) ->
  In (partner_id p) (keys m) ->
  get_default (fst (Cents.return_of_capital (pre ++ p :: post) m r)) (partner_id p) 0
  <= get_default (fst (Cents.return_of_capital (pre ++ p' :: post) m r))
       (partner_id p) 0.
Proof.
  induction pre as [|q pre IH]; intros m r p p' post Hid Hle Hpost Hin.
  - cbn [app Cents.return_of_capital]. rewrite Hid.
    destruct (r <=? 0) eqn:Er; [lia|]. apply Z.leb_gt in Er.
    set (x := get_default m (partner_id p) 0).
    destruct (Z.ltb_spec 0 (Cents.capital p - x));
      destruct (Z.ltb_spec 0 (Cents.capital p' - x));
      rewrite !cents_return_of_capital_untouched by assumption;
      rewrite ?cents_iadd_get_same by assumption; fold x; lia.
  - cbn [app Cents.return_of_capital].
    destruct (r <=? 0); [lia|].
    destruct (0 <? Cents.capital q - get_default m (partner_id q) 0);
      apply IH; try assumption.
    rewrite cents_iadd_keys. assumption.
Qed.

Lemma cents_manager_return_of_capital_monotone pre : forall m r p p' post,
  partner_id p' = partner_id p ->
  Cents.capital p <= Cents.capital p' ->
  ~ In (partner_id p) (map partner_id post) ->
  In (partner_id p) (keys m) ->
  get_default (fst (Cents.manager_return_of_capital (pre ++ p :: post) m r))
    (partner_id p) 0
  <= get_default (fst (Cents.manager_return_of_capital (pre ++ p' :: post) m r))
       (partner_id p) 0.
Proof.
  induction pre as [|q pre IH]; intros m r p p' post Hid Hle Hpost Hin.
  - cbn [app Cents.manager_return_of_capital]. rewrite Hid.
    destruct (r - Z.min (Cents.capital p) r <=? 0);
      destruct (r - Z.min (Cents.capital p') r <=? 0); cbn [fst];
      rewrite ?cents_manager_return_of_capital_untouched by assumption;
      rewrite !cents_iadd_get_same by assumption; lia.
  - cbn [app Cents.manager_return_of_capital].
    destruct (r - Z.min (Cents.capital q) r <=? 0); [lia|].
    apply IH; try assumption.
    rewrite cents_iadd_keys. assumption.
Qed.

Lemma cents_return_of_capital_agree partners : forall m r,
  0 <= r ->
  NoDup (map partner_id partners) ->
  Forall (fun p => 0 <= Cents.capital p /\ get_default m (partner_id p) 0 = 0)
         partners ->
  Cents.return_of_capital partners m r
  = Cents.manager_return_of_capital partners m r.
Proof.
  induction partners as [|p ps IH]; intros m r Hr Hnd Hall; [reflexivity|].
  cbn [Cents.return_of_capital Cents.manager_return_of_capital].
  inversion Hnd as [|? ? Hnotin Hnd']; subst.
  inversion Hall as [|? ? [Hc Hx] Hrest]; subst.
  rewrite Hx, Z.sub_0_r.
  assert (Hfresh : forall d,
    Forall (fun q => 0 <= Cents.capital q
                     /\ get_default (Cents.iadd m (partner_id p) d) (partner_id q) 0 = 0)
           ps).
  { intros d. rewrite Forall_forall in *. intros q Hq.
    destruct (Hrest q Hq) as [? Hq0]. split; [assumption|].
    rewrite cents_iadd_get_other; [assumption|].
    intros Heq. apply Hnotin. rewrite Heq. apply in_map. assumption. }
  destruct (Z.leb_spec r 0) as [Hr0|Hr0].
  - assert (r = 0) by lia. subst r.
    rewrite Z.min_r by lia. rewrite cents_iadd_zero. reflexivity.
  - destruct (Z.ltb_spec 0 (Cents.capital p)) as [Hcp|Hcp].
    + destruct (Z.leb_spec (r - Z.min (Cents.capital p) r) 0).
      * apply cents_return_of_capital_exhausted. assumption.
      * apply IH; [lia | assumption | apply Hfresh].
    + assert (Cents.capital p = 0) by lia.
      replace (Z.min (Cents.capital p) r) with 0 by lia.
      rewrite cents_iadd_zero, Z.sub_0_r.
      destruct (Z.leb_spec r 0); [lia|].
      apply IH; assumption.
Qed.

Lemma get_default_in_bounds M st k :
  penny_state st -> Cents.bounded M (view st) ->
  penny (get_default (proceeds st) k zero) /\
  0 <= cents (get_default (proceeds st) k zero) <= M /\
  cents (get_default (proceeds st) k zero)
  = get_default (cents_dict (proceeds st)) k 0.
Proof.
  intros [Hr Hd] [[Hr0 HrM] Hall]. cbn [view fst snd] in *.
  destruct (get_default_view (proceeds st) k Hd) as [G1 G2].
  split; [assumption|]. split; [|assumption]. rewrite G2.
  apply (get_default_bounded (fun v => 0 <= v <= M)); [|lia].
  eapply Forall_impl; [|exact Hall]. cbv beta. intros; lia.
Qed.

Lemma received_cents M before after k :
  M <= money_limit ->
  penny_state before -> Cents.bounded M (view before) ->
  penny_state after -> Cents.bounded M (view after) ->
  penny (received before after k) /\
  cents (received before after k)
  = get_default (cents_dict (proceeds after)) k 0
    - get_default (cents_dict (proceeds before)) k 0.
Proof.
  intros HM Hp1 Hb1 Hp2 Hb2.
  destruct (get_default_in_bounds M before k Hp1 Hb1) as (A1 & A2 & A3).
  destruct (get_default_in_bounds M after k Hp2 Hb2) as (B1 & B2 & B3).
  pose proof money_limit_lt as HL.
  unfold received. destruct (sub_cents _ _ B1 A1) as [S1 S2]; [lia|].
  split; [assumption|]. rewrite S2, A3, B3. reflexivity.
Qed.

Lemma replace_partner_facts (P : Partner -> Prop) pre p post p' :
  Forall P (pre ++ p :: post) -> P p' -> Forall P (pre ++ p' :: post).
Proof.
  rewrite !Forall_app. intros [H1 H2] Hp'. inversion H2; subst.
  split; [assumption | constructor; assumption].
Qed.

(** ** C9: monotonicity in the capital contributed *)

(** C9, counterexample.  Proceeds of 100, a preferred return of 8% and then
    a return of capital, one partner.  With 1000 contributed the preferred
    return takes 80.00 and the return-of-capital step pays 20.00; with 2000
    contributed the preferred return takes the whole 100 and the
    return-of-capital step pays nothing.  Both waterfalls behave so. *)
Lemma C9_counterexample :
  let steps1 := [mkStep "preferred_return" (mkDec 8 (-2)) zero] in
  let steps2 := steps1 ++ [step "return_of_capital"] in
  let run capital steps :=
    run_waterfall (sole_partner capital) steps
      (initial_state (dollars 100) (sole_partner capital)) in
  let run_m capital steps :=
    CAM.run_waterfall (sole_partner capital) steps
      (initial_state (dollars 100) (sole_partner capital)) in
  let paid before after :=
    match before, after with
    | Ok b, Ok a => Some (received b a "A")
    | _, _ => None
    end in
  leb (dollars 1000) (dollars 2000) = true
  /\ paid (run (dollars 1000) steps1) (run (dollars 1000) steps2)
     = Some (mkDec 2000 (-2))
  /\ paid (run (dollars 2000) steps1) (run (dollars 2000) steps2)
     = Some (mkDec 0 0)
  /\ paid (run_m (dollars 1000) steps1) (run_m (dollars 1000) steps2)
     = Some (mkDec 2000 (-2))
  /\ paid (run_m (dollars 2000) steps1) (run_m (dollars 2000) steps2)
     = Some (mkDec 0 0)
  /\ ltb (mkDec 0 0) (mkDec 2000 (-2)) = true.
Proof. vm_compute. repeat split; reflexivity. Qed.

(** C9, as amended.  From one and the same state at the start of the
    return_of_capital step (whole cents, non-negative, every partner
    present), raising one partner's capital contribution never lowers what
    that partner receives from the step, in either waterfall. *)
Theorem C9_return_of_capital_monotone
    (T M : Z) (st : wstate) (pre post : list Partner) (p : Partner)
    (capital' : Decimal) :
  M <= money_limit ->
  conserving T M (pre ++ p :: post) st ->
  Forall (fun q => money (capital_contributed q)
                   /\ 0 <= cents (capital_contributed q)) (pre ++ p :: post) ->
  money capital' ->
  NoDup (map partner_id (pre ++ p :: post)) ->
  leb (capital_contributed p) capital' = true ->
  let partners := pre ++ p :: post in
  let partners' := pre ++ with_capital p capital' :: post in
  leb (received st (return_of_capital partners st) (partner_id p))
      (received st (return_of_capital partners' st) (partner_id p)) = true
  /\ leb (received st (CAM.return_of_capital partners st) (partner_id p))
         (received st (CAM.return_of_capital partners' st) (partner_id p)) = true.
Proof.
  intros HM Hc Hcaps Hm' Hnd Hle partners partners'.
  assert (Hcp : money (capital_contributed p) /\ 0 <= cents (capital_contributed p)).
  { rewrite Forall_app in Hcaps. destruct Hcaps as [_ H]. inversion H; assumption. }
  assert (Hle' : cents (capital_contributed p) <= cents capital').
  { rewrite leb_cents in Hle by (apply Hcp || apply Hm'). apply Z.leb_le. exact Hle. }
  assert (Hcaps' : Forall (fun q => money (capital_contributed q)
                                    /\ 0 <= cents (capital_contributed q)) partners').
  { apply (replace_partner_facts _ pre p post); [assumption|].
    cbn [with_capital capital_contributed]. split; [assumption | lia]. }
  assert (Hc' : conserving T M partners' st).
  { destruct Hc as (? & ? & ? & Hk). repeat (split; try assumption).
    apply (replace_partner_facts _ pre p post); [exact Hk|].
    rewrite Forall_app in Hk. destruct Hk as [_ Hk]. inversion Hk; assumption. }
  assert (Hpost : ~ In (partner_id p) (map partner_id post)).
  { rewrite map_app in Hnd. cbn [map] in Hnd. apply NoDup_remove_2 in Hnd.
    intros Hin. apply Hnd, in_or_app. right. exact Hin. }
  assert (Hin : In (partner_id p) (keys (cents_dict (proceeds st)))).
  { rewrite cents_dict_keys. destruct Hc as (_ & _ & _ & Hk).
    rewrite Forall_app in Hk. destruct Hk as [_ Hk]. inversion Hk; assumption. }
  assert (Hmoney : forall l,
            Forall (fun q => money (capital_contributed q)
                             /\ 0 <= cents (capital_contributed q)) l ->
            Forall (fun q => money (capital_contributed q)) l).
  { intros l H. eapply Forall_impl; [|exact H]. cbv beta. tauto. }
  pose proof Hc as (Hp & Hb & _ & _).
  split.
  - pose proof (return_of_capital_conserving T M partners st HM (Hmoney _ Hcaps) Hc)
      as (P1 & B1 & _ & _).
    pose proof (return_of_capital_conserving T M partners' st HM (Hmoney _ Hcaps') Hc')
      as (P2 & B2 & _ & _).
    destruct (received_cents M st _ (partner_id p) HM Hp Hb P1 B1) as [R1 E1].
    destruct (received_cents M st _ (partner_id p) HM Hp Hb P2 B2) as [R2 E2].
    rewrite (leb_cents _ _ R1 R2), E1, E2. apply Z.leb_le.
    destruct (return_of_capital_view partners st M HM (Hmoney _ Hcaps) Hp Hb) as [_ V1].
    destruct (return_of_capital_view partners' st M HM (Hmoney _ Hcaps') Hp Hb) as [_ V2].
    apply (f_equal fst) in V1, V2. cbn [view fst] in V1, V2. rewrite V1, V2.
    apply Z.sub_le_mono_r.
    apply cents_return_of_capital_monotone; try assumption; reflexivity.
  - pose proof (manager_return_of_capital_conserving T M partners st HM Hcaps Hc)
      as (P1 & B1 & _ & _).
    pose proof (manager_return_of_capital_conserving T M partners' st HM Hcaps' Hc')
      as (P2 & B2 & _ & _).
    destruct (received_cents M st _ (partner_id p) HM Hp Hb P1 B1) as [R1 E1].
    destruct (received_cents M st _ (partner_id p) HM Hp Hb P2 B2) as [R2 E2].
    rewrite (leb_cents _ _ R1 R2), E1, E2. apply Z.leb_le.
    destruct (manager_return_of_capital_view partners st M HM Hcaps Hp Hb) as [_ V1].
    destruct (manager_return_of_capital_view partners' st M HM Hcaps' Hp Hb) as [_ V2].
    apply (f_equal fst) in V1, V2. cbn [view fst] in V1, V2. rewrite V1, V2.
    apply Z.sub_le_mono_r.
    apply cents_manager_return_of_capital_monotone; try assumption; reflexivity.
Qed.

(** ** C7: the two waterfalls *)

(** C7, counterexample.  Two pro_rata steps over 100 and two equal owners:
    the standalone waterfall empties the pool in the first step and returns
    50.00 each; the manager leaves the pool at 100, runs the second step as
    well and returns 100.0 each.  Two return_of_capital steps over 1000
    differ in the same way. *)
Lemma C7_counterexample :
  calculate_liquidation_proceeds (dollars 100) [step "pro_rata"; step "pro_rata"]
    two_partners
  = Ok [("A", mkDec 5000 (-2)); ("B", mkDec 5000 (-2))]
  /\ CAM._model_liquidation_distribution two_partners
       (mkAgreement false false [step "pro_rata"; step "pro_rata"]) (dollars 100)
     = Ok {| CAM.total_proceeds := dollars 100;
             CAM.partner_distributions := [("A", mkDec 1000 (-1)); ("B", mkDec 1000 (-1))];
             CAM.waterfall_steps_processed := 2;
             CAM.remaining_proceeds := dollars 100 |}
  /\ eqb (mkDec 5000 (-2)) (mkDec 1000 (-1)) = false
  /\ calculate_liquidation_proceeds (dollars 1000)
       [step "return_of_capital"; step "return_of_capital"] two_partners
     = Ok [("A", mkDec 10000 (-2)); ("B", mkDec 10000 (-2))]
  /\ CAM._model_liquidation_distribution two_partners
       (mkAgreement false false [step "return_of_capital"; step "return_of_capital"])
       (dollars 1000)
     = Ok {| CAM.total_proceeds := dollars 1000;
             CAM.partner_distributions := [("A", dollars 200); ("B", dollars 200)];
             CAM.waterfall_steps_processed := 2;
             CAM.remaining_proceeds := dollars 600 |}.
Proof. vm_compute. repeat split; reflexivity. Qed.

Lemma initial_state_fresh total partners :
  Forall (fun p => get_default (cents_dict (proceeds (initial_state total partners)))
                     (partner_id p) 0 = 0) partners.
Proof.
  destruct (zero_dict_spec partners) as [Z1 _].
  destruct (all_zero_view _ Z1) as [_ V2].
  apply Forall_forall. intros p _. cbn [initial_state proceeds].
  apply (get_default_bounded (fun v => v = 0)); [exact V2 | reflexivity].
Qed.

(** C7, as amended.  On a waterfall of a single return_of_capital step,
    with whole-cent, non-negative proceeds and capital contributions and
    distinct partner ids, [calculate_liquidation_proceeds] returns the
    per-partner amounts of [_model_liquidation_distribution] rounded to the
    cent, and both leave the same pool. *)
Theorem C7_agree_on_one_return_of_capital_step
    (total_proceeds : Decimal) (partners : list Partner) (s : Step)
    (terms : Agreement) :
  money total_proceeds -> 0 <= cents total_proceeds ->
  Forall (fun p => money (capital_contributed p)
                   /\ 0 <= cents (capital_contributed p)) partners ->
  NoDup (map partner_id partners) ->
  step_type s = "return_of_capital"%string ->
  distribution_waterfall terms = [s] ->
  exists st rounded analysis,
    run_waterfall partners [s] (initial_state total_proceeds partners) = Ok st
    /\ calculate_liquidation_proceeds total_proceeds [s] partners = Ok rounded
    /\ CAM._model_liquidation_distribution partners terms total_proceeds
       = Ok analysis
    /\ update_all (quantize ROUND_HALF_UP) (CAM.partner_distributions analysis)
       = Ok rounded
    /\ eqb (CAM.remaining_proceeds analysis) (remaining st) = true.
Proof.
  intros [Hp Hl] Hpos Hcaps Hnd Hs Hterms.
  set (init := initial_state total_proceeds partners).
  set (T := cents total_proceeds).
  assert (HT : T <= money_limit) by (unfold T; lia).
  assert (Hc : conserving T T partners init)
    by (apply initial_state_conserving; assumption).
  assert (Hmoney : Forall (fun q => money (capital_contributed q)) partners).
  { eapply Forall_impl; [|exact Hcaps]. cbv beta. tauto. }
  pose proof Hc as (Hpi & Hbi & _ & _).
  (* the standalone run *)
  assert (Hrun : run_waterfall partners [s] init = Ok (return_of_capital partners init)).
  { cbn [run_waterfall]. destruct (leb (remaining init) zero) eqn:E.
    - now rewrite return_of_capital_exhausted.
    - unfold run_step. rewrite Hs. reflexivity. }
  (* the manager's run *)
  assert (Hrun_m : CAM.run_waterfall partners [s] init
                   = Ok (CAM.return_of_capital partners init)).
  { cbn [CAM.run_waterfall]. unfold CAM.run_step. rewrite Hs. cbn [String.eqb bind].
    simpl. destruct (leb _ zero); reflexivity. }
  pose proof (return_of_capital_conserving T T partners init HT Hmoney Hc) as C1.
  pose proof (manager_return_of_capital_conserving T T partners init HT Hcaps Hc) as C2.
  destruct (return_of_capital_view partners init T HT Hmoney Hpi Hbi) as [_ V1].
  destruct (manager_return_of_capital_view partners init T HT Hcaps Hpi Hbi) as [_ V2].
  assert (Hagree : view (return_of_capital partners init)
                   = view (CAM.return_of_capital partners init)).
  { rewrite V1, V2. apply cents_return_of_capital_agree.
    - exact Hpos.
    - exact Hnd.
    - pose proof (initial_state_fresh total_proceeds partners) as Hf.
      rewrite Forall_forall in *. intros q Hq. split.
      + apply Hcaps. exact Hq.
      + apply Hf. exact Hq. }
  destruct (conserving_facts _ _ _ C1 HT) as ([Pr1 Pd1] & N1 & L1 & S1).
  destruct (conserving_facts _ _ _ C2 HT) as ([Pr2 Pd2] & N2 & L2 & S2).
  assert (Hq : forall st, penny_dict (proceeds st) ->
             Forall (fun kv => 0 <= snd kv) (cents_dict (proceeds st)) ->
             Cents.total (cents_dict (proceeds st)) <= money_limit ->
             update_all (quantize ROUND_HALF_UP) (proceeds st)
             = Ok (map (fun kv => (fst kv, mkDec (snd kv) (-2)))
                       (cents_dict (proceeds st)))).
  { intros st Hpd Hnn Htot. apply update_all_quantize_view; [assumption|].
    destruct (nonneg_le_total _ Hnn) as [_ Tle].
    pose proof money_limit_lt as HL.
    assert (0 < money_limit) by (vm_compute; reflexivity).
    rewrite Forall_forall in *. intros kv Hin.
    specialize (Hnn kv Hin). specialize (Tle kv Hin). cbv beta in *. lia. }
  exists (return_of_capital partners init).
  exists (map (fun kv => (fst kv, mkDec (snd kv) (-2)))
              (cents_dict (proceeds (return_of_capital partners init)))).
  eexists.
  split; [exact Hrun|]. split.
  { unfold calculate_liquidation_proceeds. fold init. rewrite Hrun. cbn [bind].
    apply Hq; assumption. }
  split.
  { unfold CAM._model_liquidation_distribution. rewrite Hterms.
    fold (initial_state total_proceeds partners). fold init.
    rewrite Hrun_m. cbn [bind]. reflexivity. }
  cbn [CAM.partner_distributions CAM.remaining_proceeds].
  apply (f_equal fst) in Hagree as Hd. apply (f_equal snd) in Hagree as Hr.
  cbn [view fst snd] in Hd, Hr. split.
  - rewrite Hd. apply Hq; assumption.
  - rewrite (eqb_cents _ _ Pr2 Pr1). apply Z.eqb_eq. symmetry. exact Hr.
Qed.

(** ** Witnesses and scenarios *)

Lemma scenario_partners_money :
  Forall (fun p => money (capital_contributed p)
                   /\ 0 <= cents (capital_contributed p)) scenario_partners.
Proof. repeat constructor; vm_compute; discriminate. Qed.

(** The specification's scenario: 1,000,000.00 returns 600,000.00 and
    400,000.00 and leaves nothing. *)
Example scenario_return_of_capital :
  run_waterfall scenario_partners [step "return_of_capital"]
    (initial_state (mkDec 100000000 (-2)) scenario_partners)
  = Ok {| proceeds := [("A", mkDec 60000000 (-2)); ("B", mkDec 40000000 (-2))];
          remaining := mkDec 0 (-2) |}
  /\ calculate_liquidation_proceeds (mkDec 100000000 (-2))
       [step "return_of_capital"] scenario_partners
     = Ok [("A", mkDec 60000000 (-2)); ("B", mkDec 40000000 (-2))].
Proof. vm_compute. split; reflexivity. Qed.

(** The specification's scenario: of 100.00, the preferred return takes
    80.00 and the rest is split 10.00 / 10.00. *)
Example scenario_preferred_then_pro_rata :
  calculate_liquidation_proceeds (mkDec 10000 (-2))
    [mkStep "preferred_return" (mkDec 8 (-2)) zero; step "pro_rata"]
    [ partner "A" "limited" (mkDec 100000 (-2)) (mkDec 50 (-2)) true false;
      partner "B" "general" zero (mkDec 50 (-2)) false false ]
  = Ok [("A", mkDec 9000 (-2)); ("B", mkDec 1000 (-2))].
Proof. vm_compute. reflexivity. Qed.

(** The specification's scenario: allocations of 49,999.00 each against a
    net income of 100,000.00 are rescaled to 50,000.00 each. *)
Example scenario_true_up :
  calculate_target_allocations two_partners (mkDec 10000000 (-2))
    [("A", mkDec 4999900 (-2)); ("B", mkDec 4999900 (-2))] []
  = Ok ([("A", mkDec 5000000 (-2)); ("B", mkDec 5000000 (-2))],
        [WarnTotalMismatch (mkDec 9999800 (-2)) (mkDec 10000000 (-2))]).
Proof. vm_compute. reflexivity. Qed.

(** A true-up whose rescaled amounts no longer fit the 28 digits of the
    context: raw allocations of 1E+25 and 1 - 1E+25 total 1.00, against a
    net income of 100 the factor is 100, and re-rounding 1E+27 to the cent
    raises InvalidOperation in both solvers. *)
Example scenario_true_up_raises :
  raw_allocations scenario_partners
    [("A", mkDec 1 25); ("B", mkDec (1 - 10 ^ 25) 0)] [] []
  = Ok [("A", mkDec (10 ^ 27) (-2)); ("B", mkDec (100 - 10 ^ 27) (-2))]
  /\ calculate_target_allocations scenario_partners (dollars 100)
       [("A", mkDec 1 25); ("B", mkDec (1 - 10 ^ 25) 0)] []
     = Raise InvalidOperation
  /\ CAM._calculate_required_allocations scenario_partners
       [("A", mkDec 1 25); ("B", mkDec (1 - 10 ^ 25) 0)] (dollars 100)
     = Raise InvalidOperation.
Proof. vm_compute. repeat split; reflexivity. Qed.

(** C1 on the specification's scenario: 1,000,000.00 over one
    return_of_capital step and contributions of 600,000.00 and 400,000.00. *)
Lemma C1_witness :
  exists st rounded,
    run_waterfall scenario_partners [step "return_of_capital"]
      (initial_state (mkDec 100000000 (-2)) scenario_partners) = Ok st /\
    calculate_liquidation_proceeds (mkDec 100000000 (-2))
      [step "return_of_capital"] scenario_partners = Ok rounded /\
    eqb (add (sum (values rounded)) (remaining st)) (mkDec 100000000 (-2)) = true.
Proof.
  assert (H1 : money (mkDec 100000000 (-2))) by is_money.
  assert (H2 : Forall (fun p => money (capital_contributed p)) scenario_partners)
    by (repeat constructor; vm_compute; discriminate).
  assert (H3 : Forall (fun s => step_type s = "return_of_capital"%string)
                      [step "return_of_capital"])
    by (repeat constructor).
  exact (proj1 (C1_conservation_on_return_of_capital (mkDec 100000000 (-2))
                  [step "return_of_capital"] scenario_partners 1%nat H1 H2 H3)).
Defined.

(** C2 on a raw total of 100.00 against a net income of 50: the division
    succeeds and the allocation is rescaled. *)
Lemma C2_witness :
  exists factor,
    div (dollars 50) (sum (values [("A", mkDec 10000 (-2))])) = Ok factor /\
    calculate_target_allocations (sole_partner zero) (dollars 50)
      [("A", dollars 100)] []
    = (adjusted <-
         update_all (fun a => quantize ROUND_HALF_UP (mul a factor))
           [("A", mkDec 10000 (-2))] ;;
       Ok (adjusted,
           [WarnTotalMismatch (sum (values [("A", mkDec 10000 (-2))])) (dollars 50)])).
Proof.
  assert (H0 : money (dollars 50)) by is_money.
  assert (H1 : TaxCalculations.raw_allocations (sole_partner zero)
                 [("A", dollars 100)] [] [] = Ok [("A", mkDec 10000 (-2))])
    by (vm_compute; reflexivity).
  assert (H2 : CAM.raw_allocations (sole_partner zero) [("A", dollars 100)] []
               = Ok [("A", mkDec 10000 (-2))])
    by (vm_compute; reflexivity).
  assert (E1 : ltb one_cent
                 (abs (sub (sum (values [("A", mkDec 10000 (-2))])) (dollars 50)))
               = true)
    by (vm_compute; reflexivity).
  assert (E2 : eqb (sum (values [("A", mkDec 10000 (-2))])) zero = false)
    by (vm_compute; reflexivity).
  destruct (C2_reconciliation_logs_and_rescales (sole_partner zero)
              (dollars 50) [("A", dollars 100)] [] [("A", dollars 100)]
              [("A", mkDec 10000 (-2))] [("A", mkDec 10000 (-2))] H0 H1 H2)
    as [H _].
  cbv zeta in H. rewrite E1, E2 in H.
  destruct H as (factor & Hd & Hs & _).
  exists factor. split; [exact Hd | exact Hs].
Defined.

(** C4 on a pool of 5000 and one partner who contributed 1000. *)
Lemma C4_witness :
  return_of_capital (sole_partner (dollars 1000))
    (initial_state (dollars 5000) (sole_partner (dollars 1000)))
  = spec_return_of_capital due_standalone (sole_partner (dollars 1000))
      (initial_state (dollars 5000) (sole_partner (dollars 1000))).
Proof.
  assert (H : ltb zero (remaining (initial_state (dollars 5000)
                                     (sole_partner (dollars 1000)))) = true)
    by (vm_compute; reflexivity).
  exact (proj1 C4_return_of_capital_step (sole_partner (dollars 1000))
           (initial_state (dollars 5000) (sole_partner (dollars 1000))) H).
Defined.

(** C7 on the specification's scenario. *)
Lemma C7_witness :
  exists st rounded analysis,
    run_waterfall scenario_partners [step "return_of_capital"]
      (initial_state (mkDec 100000000 (-2)) scenario_partners) = Ok st
    /\ calculate_liquidation_proceeds (mkDec 100000000 (-2))
         [step "return_of_capital"] scenario_partners = Ok rounded
    /\ CAM._model_liquidation_distribution scenario_partners
         (mkAgreement false false [step "return_of_capital"]) (mkDec 100000000 (-2))
       = Ok analysis
    /\ update_all (quantize ROUND_HALF_UP) (CAM.partner_distributions analysis)
       = Ok rounded
    /\ eqb (CAM.remaining_proceeds analysis) (remaining st) = true.
Proof.
  assert (H1 : money (mkDec 100000000 (-2))) by is_money.
  assert (H2 : 0 <= cents (mkDec 100000000 (-2))) by (vm_compute; discriminate).
  assert (H3 : NoDup (map partner_id scenario_partners)).
  { repeat constructor; simpl; intuition discriminate. }
  exact (C7_agree_on_one_return_of_capital_step (mkDec 100000000 (-2))
           scenario_partners (step "return_of_capital")
           (mkAgreement false false [step "return_of_capital"])
           H1 H2 scenario_partners_money H3 eq_refl eq_refl).
Defined.


(** C9 on a pool of 150 and two partners: raising the first contribution
    from 100 to 120 does not lower what the first partner is returned. *)
Lemma C9_witness :
  leb (received (initial_state (dollars 150) two_partners)
         (return_of_capital two_partners (initial_state (dollars 150) two_partners)) "A")
      (received (initial_state (dollars 150) two_partners)
         (return_of_capital
            (with_capital (partner "A" "limited" (dollars 100) (mkDec 50 (-2)) false false)
                          (dollars 120)
             :: [partner "B" "general" (dollars 100) (mkDec 50 (-2)) false false])
            (initial_state (dollars 150) two_partners)) "A") = true.
Proof.
  assert (H0 : cents (dollars 150) <= money_limit) by (vm_compute; discriminate).
  assert (H1 : conserving (cents (dollars 150)) (cents (dollars 150))
                 ([] ++ partner "A" "limited" (dollars 100) (mkDec 50 (-2)) false false
                     :: [partner "B" "general" (dollars 100) (mkDec 50 (-2)) false false])
                 (initial_state (dollars 150) two_partners)).
  { apply (initial_state_conserving (dollars 150) two_partners);
      vm_compute; discriminate. }
  assert (H2 : Forall (fun q => money (capital_contributed q)
                                /\ 0 <= cents (capital_contributed q)) two_partners)
    by (repeat constructor; vm_compute; discriminate).
  assert (H3 : money (dollars 120)) by is_money.
  assert (H4 : NoDup (map partner_id two_partners)).
  { repeat constructor; simpl; intuition discriminate. }
  assert (H5 : leb (capital_contributed
                      (partner "A" "limited" (dollars 100) (mkDec 50 (-2)) false false))
                   (dollars 120) = true)
    by (vm_compute; reflexivity).
  exact (proj1 (C9_return_of_capital_monotone _ _ _ [] _ _ (dollars 120)
                  H0 H1 H2 H3 H4 H5)).
Defined.

(* ================================================================== *)
(** * Further properties of the two modules *)
(* ================================================================== *)

(** ** No division by zero in the waterfalls

    Every division of the two waterfalls has a divisor that was tested
    positive or is the constant 100.  In this model, whose arithmetic raises
    only on a zero divisor, the step loops therefore always return (lemmas
    [run_waterfall_ok] and [manager_run_waterfall_ok]); under Python's
    context they can still raise Overflow on amounts whose exponent leaves
    the context's range. *)

Lemma pro_rata_shares_ok total pool partners : forall acc,
  coef total <> 0 ->
  exists d, pro_rata_shares total pool partners acc = Ok d.
Proof.
  induction partners as [|p ps IH]; intros acc Hnz; simpl; [eauto|].
  destruct (div_ok (ownership_percentage p) total Hnz) as [q ->]. cbn [bind].
  apply IH, Hnz.
Qed.

Lemma pro_rata_ok partners st : exists st', pro_rata partners st = Ok st'.
Proof.
  unfold pro_rata.
  destruct (ltb zero (sum (map ownership_percentage partners))) eqn:E; [|eauto].
  destruct (pro_rata_shares_ok _ (remaining st) partners (proceeds st)
              (ltb_zero_coef _ E)) as [d ->].
  cbn [bind]. eauto.
Qed.

Lemma run_step_ok partners s st : exists st', run_step partners s st = Ok st'.
Proof.
  unfold run_step.
  repeat match goal with |- context [if ?c then _ else _] => destruct c end;
    eauto using pro_rata_ok.
Qed.

Lemma run_waterfall_ok partners steps : forall st,
  exists st', run_waterfall partners steps st = Ok st'.
Proof.
  induction steps as [|s steps IH]; intros st; simpl; [eauto|].
  destruct (leb (remaining st) zero); [eauto|].
  destruct (run_step_ok partners s st) as [st' ->]. cbn [bind]. apply IH.
Qed.

Lemma manager_pro_rata_shares_ok total pool partners : forall acc,
  exists d, CAM.pro_rata_shares total pool partners acc = Ok d.
Proof.
  induction partners as [|p ps IH]; intros acc; simpl; [eauto|].
  destruct (ltb zero total) eqn:E.
  - destruct (div_ok (ownership_percentage p) total (ltb_zero_coef _ E)) as [q ->].
    cbn [bind]. apply IH.
  - cbn [bind]. apply IH.
Qed.

Lemma hundred_nonzero : coef hundred <> 0.
Proof. discriminate. Qed.

Lemma manager_run_step_ok partners s st :
  exists st', CAM.run_step partners s st = Ok st'.
Proof.
  unfold CAM.run_step, CAM.catch_up, CAM.promote, CAM.pro_rata.
  repeat match goal with |- context [if ?c then _ else _] => destruct c end;
    eauto.
  - destruct (div_ok (percentage s) hundred hundred_nonzero) as [q ->].
    cbn [bind]. eauto.
  - destruct (div_ok (percentage s) hundred hundred_nonzero) as [q ->].
    cbn [bind]. eauto.
  - destruct (manager_pro_rata_shares_ok
                (sum (map ownership_percentage partners)) (remaining st)
                partners (proceeds st)) as [d ->].
    cbn [bind]. eauto.
Qed.

Lemma manager_run_waterfall_ok partners steps : forall st,
  exists st', CAM.run_waterfall partners steps st = Ok st'.
Proof.
  induction steps as [|s steps IH]; intros st; simpl; [eauto|].
  destruct (manager_run_step_ok partners s st) as [st' ->]. cbn [bind].
  destruct (leb (remaining st') zero); [eauto | apply IH].
Qed.

Lemma update_all_quantize_raise mode (d : dict Decimal) e :
  update_all (quantize mode) d = Raise e -> e = InvalidOperation.
Proof.
  unfold update_all. induction d as [|[k v] d IH]; simpl; [discriminate|].
  destruct (quantize mode v) eqn:Q; cbn [bind].
  - destruct (mapM _ d) eqn:M; cbn [bind]; [discriminate|].
    intros H. inversion H; subst. apply IH. reflexivity.
  - intros H. inversion H; subst. eapply quantize_raise; eassumption.
Qed.

(** X1.  Neither waterfall ever divides by zero.  For every input the step
    loop of [calculate_liquidation_proceeds] and the manager's liquidation
    model raise neither DivisionByZero (x / 0) nor the InvalidOperation of
    0 / 0, and [calculate_liquidation_proceeds], whose final rounding can
    raise InvalidOperation, never raises DivisionByZero. *)
Theorem X1_waterfalls_never_divide_by_zero
    (partners : list Partner) (steps : list Step) (total_proceeds : Decimal)
    (terms : Agreement) :
  (CAM._model_liquidation_distribution partners terms total_proceeds
   <> Raise DivisionByZero
   /\ CAM._model_liquidation_distribution partners terms total_proceeds
      <> Raise InvalidOperation)
  /\ (run_waterfall partners steps (initial_state total_proceeds partners)
      <> Raise DivisionByZero
      /\ run_waterfall partners steps (initial_state total_proceeds partners)
         <> Raise InvalidOperation)
  /\ calculate_liquidation_proceeds total_proceeds steps partners
     <> Raise DivisionByZero.
Proof.
  split; [|split].
  - unfold CAM._model_liquidation_distribution.
    destruct (manager_run_waterfall_ok partners (distribution_waterfall terms)
                {| proceeds := zero_dict partners; remaining := total_proceeds |})
      as [st ->].
    cbn [bind]. split; discriminate.
  - destruct (run_waterfall_ok partners steps (initial_state total_proceeds partners))
      as [st ->].
    split; discriminate.
  - unfold calculate_liquidation_proceeds.
    destruct (run_waterfall_ok partners steps (initial_state total_proceeds partners))
      as [st ->].
    cbn [bind]. intros H. apply update_all_quantize_raise in H. discriminate.
Qed.

(** ** The pool of the standalone waterfall *)

Lemma ltb_zero_nonneg d : ltb d zero = false <-> 0 <= coef d.
Proof.
  unfold ltb. rewrite compare_zero.
  destruct (Z.compare_spec (coef d) 0); split; intros; try reflexivity;
    try discriminate; lia.
Qed.

Lemma return_of_capital_pool_nonneg partners : forall st,
  0 <= coef (remaining st) ->
  0 <= coef (remaining (return_of_capital partners st)).
Proof.
  induction partners as [|p ps IH]; intros st H; simpl; [assumption|].
  destruct (leb (remaining st) zero); [assumption|].
  destruct (ltb zero _); apply IH; [|assumption].
  cbn [remaining]. apply sub_nonneg, leb_min_pool.
Qed.

Lemma preferred_return_pool_nonneg rate partners : forall st,
  0 <= coef (remaining st) ->
  0 <= coef (remaining (preferred_return rate partners st)).
Proof.
  induction partners as [|p ps IH]; intros st H; simpl; [assumption|].
  destruct (leb (remaining st) zero); [assumption|].
  destruct (receives_preferred_return p); apply IH; [|assumption].
  cbn [remaining]. apply sub_nonneg, leb_min_pool.
Qed.

Lemma run_step_pool_nonneg partners s st st' :
  0 <= coef (remaining st) -> run_step partners s st = Ok st' ->
  0 <= coef (remaining st').
Proof.
  intros H. unfold run_step.
  destruct (String.eqb (step_type s) "return_of_capital").
  { intros E. inversion E; subst. now apply return_of_capital_pool_nonneg. }
  destruct (String.eqb (step_type s) "preferred_return").
  { intros E. inversion E; subst. now apply preferred_return_pool_nonneg. }
  destruct (String.eqb (step_type s) "pro_rata").
  - unfold pro_rata.
    destruct (ltb zero (sum (map ownership_percentage partners))).
    + destruct (pro_rata_shares _ _ _ _); cbn [bind]; [|discriminate].
      intros E. inversion E; subst. cbn. lia.
    + intros E. inversion E; subst. assumption.
  - intros E. inversion E; subst. assumption.
Qed.

Lemma run_waterfall_pool_nonneg partners steps : forall st st',
  0 <= coef (remaining st) -> run_waterfall partners steps st = Ok st' ->
  0 <= coef (remaining st').
Proof.
  induction steps as [|s steps IH]; intros st st' H; simpl.
  - intros E. inversion E; subst. assumption.
  - destruct (leb (remaining st) zero); [intros E; inversion E; subst; assumption|].
    destruct (run_step partners s st) as [st1|] eqn:R; cbn [bind]; [|discriminate].
    apply IH. eapply run_step_pool_nonneg; eassumption.
Qed.

(** X2.  The standalone waterfall never overdraws the pool: started on
    proceeds that are not negative, whatever the steps, rates and capital
    contributions (negative ones included), the state its step loop ends in
    has a pool that is not negative. *)
Theorem X2_standalone_pool_never_negative
    (partners : list Partner) (steps : list Step) (total_proceeds : Decimal)
    (st : wstate) :
  ltb total_proceeds zero = false ->
  run_waterfall partners steps (initial_state total_proceeds partners) = Ok st ->
  ltb (remaining st) zero = false.
Proof.
  intros H Hst.
  apply ltb_zero_nonneg.
  apply (run_waterfall_pool_nonneg partners steps
           (initial_state total_proceeds partners) st
           (proj1 (ltb_zero_nonneg total_proceeds) H) Hst).
Qed.

(** X2 on proceeds of 100.00 that a preferred return of 8% and a pro_rata
    step divide between two partners. *)
Lemma X2_witness :
  exists st,
    run_waterfall scenario_partners
      [mkStep "preferred_return" (mkDec 8 (-2)) zero; step "pro_rata"]
      (initial_state (dollars 100) scenario_partners) = Ok st
    /\ ltb (remaining st) zero = false.
Proof.
  assert (H : ltb (dollars 100) zero = false) by (vm_compute; reflexivity).
  destruct (run_waterfall scenario_partners
              [mkStep "preferred_return" (mkDec 8 (-2)) zero; step "pro_rata"]
              (initial_state (dollars 100) scenario_partners)) as [st|e] eqn:R.
  - exists st. split; [reflexivity|].
    exact (X2_standalone_pool_never_negative scenario_partners
             [mkStep "preferred_return" (mkDec 8 (-2)) zero; step "pro_rata"]
             (dollars 100) st H R).
  - exfalso. vm_compute in R. discriminate.
Defined.

(** ** Sequencing of steps in the standalone waterfall *)

Lemma run_waterfall_exhausted partners steps st :
  leb (remaining st) zero = true -> run_waterfall partners steps st = Ok st.
Proof. intros H. destruct steps; simpl; [reflexivity | now rewrite H]. Qed.

(** X3.  The standalone waterfall can be cut at any step boundary: running
    a list of steps is running its first part and then the rest from the
    state reached. *)
Theorem X3_standalone_waterfall_composes
    (partners : list Partner) (steps1 steps2 : list Step) (st : wstate) :
  run_waterfall partners (steps1 ++ steps2) st
  = (st' <- run_waterfall partners steps1 st ;;
     run_waterfall partners steps2 st').
Proof.
  revert st. induction steps1 as [|s steps1 IH]; intros st; [reflexivity|].
  cbn [app run_waterfall].
  destruct (leb (remaining st) zero) eqn:E.
  - cbn [bind]. symmetry. apply run_waterfall_exhausted, E.
  - destruct (run_step partners s st); cbn [bind]; [apply IH | reflexivity].
Qed.


(** ** Steps the standalone waterfall does not know *)

(** X4.  [calculate_liquidation_proceeds] has no branch for catch_up,
    promote or any other step type: such steps can be struck from the
    waterfall without changing its result. *)
Theorem X4_standalone_ignores_unrecognised_steps
    (total_proceeds : Decimal) (steps : list Step) (partners : list Partner) :
  calculate_liquidation_proceeds total_proceeds steps partners
  = calculate_liquidation_proceeds total_proceeds (filter recognised steps) partners.
Proof.
  unfold calculate_liquidation_proceeds. f_equal.
  generalize (initial_state total_proceeds partners).
  induction steps as [|s steps IH]; intros st; [reflexivity|].
  cbn [filter]. unfold recognised at 1.
  destruct (String.eqb (step_type s) "return_of_capital") eqn:E1;
    [|destruct (String.eqb (step_type s) "preferred_return") eqn:E2;
      [|destruct (String.eqb (step_type s) "pro_rata") eqn:E3]];
    cbn [orb run_waterfall].
  - destruct (leb (remaining st) zero); [reflexivity|].
    destruct (run_step partners s st); cbn [bind]; [apply IH | reflexivity].
  - destruct (leb (remaining st) zero); [reflexivity|].
    destruct (run_step partners s st); cbn [bind]; [apply IH | reflexivity].
  - destruct (leb (remaining st) zero); [reflexivity|].
    destruct (run_step partners s st); cbn [bind]; [apply IH | reflexivity].
  - destruct (leb (remaining st) zero) eqn:L.
    + symmetry. apply run_waterfall_exhausted, L.
    + unfold run_step. rewrite E1, E2, E3. cbn [bind]. apply IH.
Qed.

(** ** No partners *)


(** ** One entry for every partner *)

Lemma iadd_keys d k x : keys (iadd d k x) = keys d.
Proof.
  induction d as [|[k' v] d IH]; simpl; [reflexivity|].
  destruct (String.eqb k' k); simpl; [reflexivity | now rewrite IH].
Qed.

Lemma return_of_capital_keys partners : forall st,
  keys (proceeds (return_of_capital partners st)) = keys (proceeds st).
Proof.
  induction partners as [|p ps IH]; intros st; simpl; [reflexivity|].
  destruct (leb (remaining st) zero); [reflexivity|].
  destruct (ltb zero _); rewrite IH; [apply iadd_keys | reflexivity].
Qed.

Lemma preferred_return_keys rate partners : forall st,
  keys (proceeds (preferred_return rate partners st)) = keys (proceeds st).
Proof.
  induction partners as [|p ps IH]; intros st; simpl; [reflexivity|].
  destruct (leb (remaining st) zero); [reflexivity|].
  destruct (receives_preferred_return p); rewrite IH; [apply iadd_keys | reflexivity].
Qed.

Lemma pro_rata_shares_keys total pool partners : forall acc d,
  pro_rata_shares total pool partners acc = Ok d -> keys d = keys acc.
Proof.
  induction partners as [|p ps IH]; intros acc d; simpl.
  - intros E. inversion E; reflexivity.
  - destruct (div (ownership_percentage p) total); cbn [bind]; [|discriminate].
    intros E. rewrite (IH _ _ E). apply iadd_keys.
Qed.

Lemma run_step_keys partners s st st' :
  run_step partners s st = Ok st' -> keys (proceeds st') = keys (proceeds st).
Proof.
  unfold run_step.
  destruct (String.eqb (step_type s) "return_of_capital").
  { intros E. inversion E; subst. apply return_of_capital_keys. }
  destruct (String.eqb (step_type s) "preferred_return").
  { intros E. inversion E; subst. apply preferred_return_keys. }
  destruct (String.eqb (step_type s) "pro_rata").
  - unfold pro_rata.
    destruct (ltb zero (sum (map ownership_percentage partners))).
    + destruct (pro_rata_shares _ _ _ _) eqn:P; cbn [bind]; [|discriminate].
      intros E. inversion E; subst. cbn [proceeds].
      eapply pro_rata_shares_keys; eassumption.
    + intros E. inversion E; reflexivity.
  - intros E. inversion E; reflexivity.
Qed.

Lemma run_waterfall_keys partners steps : forall st st',
  run_waterfall partners steps st = Ok st' ->
  keys (proceeds st') = keys (proceeds st).
Proof.
  induction steps as [|s steps IH]; intros st st'; simpl.
  - intros E. inversion E; reflexivity.
  - destruct (leb (remaining st) zero); [intros E; inversion E; reflexivity|].
    destruct (run_step partners s st) as [st1|] eqn:R; cbn [bind]; [|discriminate].
    intros E. rewrite (IH _ _ E). eapply run_step_keys; eassumption.
Qed.

Lemma manager_return_of_capital_keys partners : forall st,
  keys (proceeds (CAM.return_of_capital partners st)) = keys (proceeds st).
Proof.
  induction partners as [|p ps IH]; intros st; simpl; [reflexivity|].
  destruct (leb _ zero); [|rewrite IH]; apply iadd_keys.
Qed.

Lemma manager_preferred_return_keys rate partners : forall st,
  keys (proceeds (CAM.preferred_return rate partners st)) = keys (proceeds st).
Proof.
  induction partners as [|p ps IH]; intros st; simpl; [reflexivity|].
  destruct (String.eqb (partner_type p) "limited"); rewrite IH;
    [apply iadd_keys | reflexivity].
Qed.

Lemma manager_share_of_pool_keys eligible pct partners : forall st,
  keys (proceeds (CAM.share_of_pool eligible pct partners st)) = keys (proceeds st).
Proof.
  induction partners as [|p ps IH]; intros st; simpl; [reflexivity|].
  destruct (eligible p); rewrite IH; [apply iadd_keys | reflexivity].
Qed.

Lemma manager_pro_rata_shares_keys total pool partners : forall acc d,
  CAM.pro_rata_shares total pool partners acc = Ok d -> keys d = keys acc.
Proof.
  induction partners as [|p ps IH]; intros acc d; simpl.
  - intros E. inversion E; reflexivity.
  - destruct (if ltb zero total then div (ownership_percentage p) total else Ok zero);
      cbn [bind]; [|discriminate].
    intros E. rewrite (IH _ _ E). apply iadd_keys.
Qed.

Lemma manager_run_step_keys partners s st st' :
  CAM.run_step partners s st = Ok st' -> keys (proceeds st') = keys (proceeds st).
Proof.
  unfold CAM.run_step, CAM.catch_up, CAM.promote, CAM.pro_rata.
  destruct (String.eqb (step_type s) "return_of_capital").
  { intros E. inversion E; subst. apply manager_return_of_capital_keys. }
  destruct (String.eqb (step_type s) "preferred_return").
  { intros E. inversion E; subst. apply manager_preferred_return_keys. }
  destruct (String.eqb (step_type s) "catch_up").
  { destruct (div (percentage s) hundred); cbn [bind]; [|discriminate].
    intros E. inversion E; subst. apply manager_share_of_pool_keys. }
  destruct (String.eqb (step_type s) "promote").
  { destruct (div (percentage s) hundred); cbn [bind]; [|discriminate].
    intros E. inversion E; subst. apply manager_share_of_pool_keys. }
  destruct (String.eqb (step_type s) "pro_rata").
  - destruct (CAM.pro_rata_shares _ _ _ _) eqn:P; cbn [bind]; [|discriminate].
    intros E. inversion E; subst. cbn [proceeds].
    eapply manager_pro_rata_shares_keys; eassumption.
  - intros E. inversion E; reflexivity.
Qed.

Lemma manager_run_waterfall_keys partners steps : forall st st',
  CAM.run_waterfall partners steps st = Ok st' ->
  keys (proceeds st') = keys (proceeds st).
Proof.
  induction steps as [|s steps IH]; intros st st'; simpl.
  - intros E. inversion E; reflexivity.
  - destruct (CAM.run_step partners s st) as [st1|] eqn:R; cbn [bind]; [|discriminate].
    pose proof (manager_run_step_keys _ _ _ _ R) as K.
    destruct (leb (remaining st1) zero).
    + intros E. inversion E; subst. exact K.
    + intros E. rewrite (IH _ _ E). exact K.
Qed.

Lemma update_all_keys {V} (f : V -> result V) (d d' : dict V) :
  update_all f d = Ok d' -> keys d' = keys d.
Proof.
  unfold update_all. revert d'. induction d as [|[k v] d IH]; intros d'; simpl.
  - intros E. inversion E; reflexivity.
  - destruct (f v); cbn [bind]; [|discriminate].
    destruct (mapM _ d) eqn:M; cbn [bind]; [|discriminate].
    intros E. inversion E; subst. simpl. f_equal. apply IH. reflexivity.
Qed.

Lemma set_keys {V} (d : dict V) k v :
  keys (Dict.set d k v) = if in_dec string_dec k (keys d) then keys d else keys d ++ [k].
Proof.
  induction d as [|[k' v'] d IH]; simpl; [reflexivity|].
  destruct (String.eqb_spec k' k) as [->|Hne].
  - destruct (string_dec k k); [reflexivity | contradiction].
  - simpl. rewrite IH.
    destruct (string_dec k' k); [contradiction|].
    destruct (in_dec string_dec k (keys d)); reflexivity.
Qed.

Lemma zero_dict_keys_from partners : forall acc : dict Decimal,
  NoDup (keys acc) ->
  let d := fold_left (fun d p => Dict.set d (partner_id p) zero) partners acc in
  NoDup (keys d)
  /\ (forall k, In k (keys d) <-> In k (keys acc) \/ In k (map partner_id partners))
  /\ (NoDup (keys acc ++ map partner_id partners) ->
      keys d = keys acc ++ map partner_id partners).
Proof.
  induction partners as [|p ps IH]; intros acc Hnd; cbn [fold_left map].
  - split; [assumption|]. split; [intros k; simpl; tauto|].
    intros _. now rewrite app_nil_r.
  - assert (Hnd' : NoDup (keys (Dict.set acc (partner_id p) zero))).
    { rewrite set_keys. destruct (in_dec string_dec _ _); [assumption|].
      apply NoDup_app; [assumption | repeat constructor; simpl; tauto |].
      intros a Ha [<-|[]]. contradiction. }
    destruct (IH _ Hnd') as (A & B & C). split; [exact A|]. split.
    + intros k. rewrite B, set_keys.
      destruct (in_dec string_dec (partner_id p) (keys acc)) as [Hin|Hin].
      * simpl. split; [intros [?|?]; auto | intros [?|[<-|?]]; auto].
      * rewrite in_app_iff. simpl. tauto.
    + intros Hall. rewrite set_keys in C.
      destruct (in_dec string_dec (partner_id p) (keys acc)) as [Hin|Hin].
      * exfalso. apply NoDup_remove_2 in Hall. apply Hall, in_or_app. auto.
      * rewrite <- app_assoc in C. simpl in C. apply C. exact Hall.
Qed.

(** X6.  Both waterfalls return one entry for every partner id and no
    other: the keys of a result are those of the dictionary the partners
    initialise, which has no repeated key, holds exactly the partner ids,
    and lists them in the given order when the ids are distinct. *)
Theorem X6_one_entry_per_partner
    (total_proceeds : Decimal) (steps : list Step) (partners : list Partner)
    (terms : Agreement) :
  (forall distributed,
      calculate_liquidation_proceeds total_proceeds steps partners = Ok distributed ->
      keys distributed = keys (zero_dict partners))
  /\ (forall analysis,
      CAM._model_liquidation_distribution partners terms total_proceeds = Ok analysis ->
      keys (CAM.partner_distributions analysis) = keys (zero_dict partners))
  /\ NoDup (keys (zero_dict partners))
  /\ (forall k, In k (keys (zero_dict partners)) <-> In k (map partner_id partners))
  /\ (NoDup (map partner_id partners) ->
      keys (zero_dict partners) = map partner_id partners).
Proof.
  destruct (zero_dict_keys_from partners [] (NoDup_nil _)) as (A & B & C).
  split; [|split; [|split; [exact A | split]]].
  - intros distributed. unfold calculate_liquidation_proceeds.
    destruct (run_waterfall _ _ _) as [st|] eqn:R; cbn [bind]; [|discriminate].
    intros U. rewrite (update_all_keys _ _ _ U).
    apply (run_waterfall_keys _ _ _ _ R).
  - intros analysis. unfold CAM._model_liquidation_distribution.
    destruct (CAM.run_waterfall _ _ _) as [st|] eqn:R; cbn [bind]; [|discriminate].
    intros E. inversion E; subst. cbn [CAM.partner_distributions].
    apply (manager_run_waterfall_keys _ _ _ _ R).
  - intros k. rewrite (B k). simpl. tauto.
  - intros H. apply (C H).
Qed.

(** X6 on the two partners A and B, a preferred return and a pro_rata step:
    both results have the keys A and B, in this order. *)
Lemma X6_witness :
  (exists distributed,
      calculate_liquidation_proceeds (dollars 100)
        [mkStep "preferred_return" (mkDec 8 (-2)) zero; step "pro_rata"]
        scenario_partners = Ok distributed
      /\ keys distributed = ["A"; "B"]%string)
  /\ (exists analysis,
      CAM._model_liquidation_distribution scenario_partners
        (mkAgreement false false
           [mkStep "preferred_return" (mkDec 8 (-2)) zero; step "pro_rata"])
        (dollars 100) = Ok analysis
      /\ keys (CAM.partner_distributions analysis) = ["A"; "B"]%string).
Proof.
  destruct (X6_one_entry_per_partner (dollars 100)
              [mkStep "preferred_return" (mkDec 8 (-2)) zero; step "pro_rata"]
              scenario_partners
              (mkAgreement false false
                 [mkStep "preferred_return" (mkDec 8 (-2)) zero; step "pro_rata"]))
    as (H1 & H2 & _ & _ & H5).
  assert (N : NoDup (map partner_id scenario_partners)).
  { repeat constructor; simpl; intuition discriminate. }
  specialize (H5 N). cbn [map scenario_partners partner partner_id] in H5.
  split.
  - destruct (calculate_liquidation_proceeds _ _ _) as [d|e] eqn:R.
    + exists d. split; [reflexivity|]. rewrite <- H5. apply H1. reflexivity.
    + exfalso. vm_compute in R. discriminate.
  - destruct (CAM._model_liquidation_distribution _ _ _) as [an|e] eqn:R.
    + exists an. split; [reflexivity|]. rewrite <- H5. apply H2. reflexivity.
    + exfalso. vm_compute in R. discriminate.
Defined.

(** ** Who a step can pay *)

Lemma iadd_get_other d k k' x : k <> k' -> get (iadd d k x) k' = get d k'.
Proof.
  intros Hne. induction d as [|[k0 v] d IH]; simpl; [reflexivity|].
  destruct (String.eqb_spec k0 k) as [->|Hk]; simpl.
  - destruct (String.eqb_spec k k'); [contradiction | reflexivity].
  - destruct (String.eqb k0 k'); [reflexivity | exact IH].
Qed.

Lemma preferred_return_untouched rate k partners : forall st,
  (forall p, In p partners -> receives_preferred_return p = true ->
             partner_id p <> k) ->
  get (proceeds (preferred_return rate partners st)) k = get (proceeds st) k.
Proof.
  induction partners as [|p ps IH]; intros st H; simpl; [reflexivity|].
  destruct (leb (remaining st) zero); [reflexivity|].
  destruct (receives_preferred_return p) eqn:E.
  - rewrite IH by (intros q Hq; apply H; right; exact Hq).
    cbn [proceeds]. apply iadd_get_other. apply H; [left; reflexivity | exact E].
  - apply IH. intros q Hq. apply H. right. exact Hq.
Qed.

Lemma manager_share_of_pool_untouched eligible pct k partners : forall st,
  (forall p, In p partners -> eligible p = true -> partner_id p <> k) ->
  get (proceeds (CAM.share_of_pool eligible pct partners st)) k = get (proceeds st) k.
Proof.
  induction partners as [|p ps IH]; intros st H; simpl; [reflexivity|].
  destruct (eligible p) eqn:E.
  - rewrite IH by (intros q Hq; apply H; right; exact Hq).
    cbn [proceeds]. apply iadd_get_other. apply H; [left; reflexivity | exact E].
  - apply IH. intros q Hq. apply H. right. exact Hq.
Qed.

Lemma manager_preferred_return_untouched rate k partners : forall st,
  (forall p, In p partners -> partner_type p = "limited"%string ->
             partner_id p <> k) ->
  get (proceeds (CAM.preferred_return rate partners st)) k = get (proceeds st) k.
Proof.
  induction partners as [|p ps IH]; intros st H; simpl; [reflexivity|].
  destruct (String.eqb_spec (partner_type p) "limited") as [E|E].
  - rewrite IH by (intros q Hq; apply H; right; exact Hq).
    cbn [proceeds]. apply iadd_get_other. apply H; [left; reflexivity | exact E].
  - apply IH. intros q Hq. apply H. right. exact Hq.
Qed.

(** X7.  A step pays only the partners it is meant for.  The entry of an id
    that belongs to no eligible partner is left exactly as it was: by the
    standalone preferred return when no partner with that id has
    [receives_preferred_return]; by the manager's preferred return when none
    is of type "limited"; in the state its catch-up returns when none is of
    type "general"; in the state its promote returns when none has
    [receives_promote]. *)
Theorem X7_steps_pay_eligible_partners_only
    (partners : list Partner) (s : Step) (st : wstate) (k : string) :
  ((forall p, In p partners -> receives_preferred_return p = true ->
              partner_id p <> k) ->
   get (proceeds (preferred_return (rate s) partners st)) k = get (proceeds st) k)
  /\ ((forall p, In p partners -> partner_type p = "limited"%string ->
                 partner_id p <> k) ->
      get (proceeds (CAM.preferred_return (rate s) partners st)) k
      = get (proceeds st) k)
  /\ ((forall p, In p partners -> partner_type p = "general"%string ->
                 partner_id p <> k) ->
      forall st', CAM.catch_up s partners st = Ok st' ->
                  get (proceeds st') k = get (proceeds st) k)
  /\ ((forall p, In p partners -> receives_promote p = true -> partner_id p <> k) ->
      forall st', CAM.promote s partners st = Ok st' ->
                  get (proceeds st') k = get (proceeds st) k).
Proof.
  split; [apply preferred_return_untouched|].
  split; [apply manager_preferred_return_untouched|].
  split.
  - intros H st'. unfold CAM.catch_up.
    destruct (div (percentage s) hundred) as [q|]; cbn [bind]; [|discriminate].
    intros E. inversion E; subst.
    apply manager_share_of_pool_untouched.
    intros p Hp Ep. apply (H p Hp). apply String.eqb_eq. exact Ep.
  - intros H st'. unfold CAM.promote.
    destruct (div (percentage s) hundred) as [q|]; cbn [bind]; [|discriminate].
    intros E. inversion E; subst.
    apply manager_share_of_pool_untouched. exact H.
Qed.

(** X7 on two partners, A limited and flagged for the preferred return, B
    general, neither flagged for the promote: the entry of B survives both
    preferred-return branches, and the entry of A survives a catch-up and a
    promote of 20%. *)
Lemma X7_witness :
  get (proceeds (preferred_return (mkDec 8 (-2)) scenario_partners
                   (initial_state (dollars 100) scenario_partners))) "B"
  = get (proceeds (initial_state (dollars 100) scenario_partners)) "B"
  /\ get (proceeds (CAM.preferred_return (mkDec 8 (-2)) scenario_partners
                      (initial_state (dollars 100) scenario_partners))) "B"
     = get (proceeds (initial_state (dollars 100) scenario_partners)) "B"
  /\ (exists st',
        CAM.catch_up (mkStep "catch_up" zero (dollars 20)) scenario_partners
          (initial_state (dollars 100) scenario_partners) = Ok st'
        /\ get (proceeds st') "A"
           = get (proceeds (initial_state (dollars 100) scenario_partners)) "A")
  /\ (exists st',
        CAM.promote (mkStep "promote" zero (dollars 20)) scenario_partners
          (initial_state (dollars 100) scenario_partners) = Ok st'
        /\ get (proceeds st') "A"
           = get (proceeds (initial_state (dollars 100) scenario_partners)) "A").
Proof.
  destruct (X7_steps_pay_eligible_partners_only scenario_partners
              (mkStep "preferred_return" (mkDec 8 (-2)) zero)
              (initial_state (dollars 100) scenario_partners) "B")
    as (H1 & H2 & _).
  destruct (X7_steps_pay_eligible_partners_only scenario_partners
              (mkStep "catch_up" zero (dollars 20))
              (initial_state (dollars 100) scenario_partners) "A")
    as (_ & _ & H3 & _).
  destruct (X7_steps_pay_eligible_partners_only scenario_partners
              (mkStep "promote" zero (dollars 20))
              (initial_state (dollars 100) scenario_partners) "A")
    as (_ & _ & _ & H4).
  split; [|split; [|split]].
  - apply H1. intros p [<-|[<-|[]]]; simpl; intros; discriminate.
  - apply H2. intros p [<-|[<-|[]]]; simpl; intros; discriminate.
  - destruct (CAM.catch_up _ _ _) as [st'|e] eqn:R.
    + exists st'. split; [reflexivity|]. apply H3; [|reflexivity].
      intros p [<-|[<-|[]]]; simpl; intros; discriminate.
    + exfalso. vm_compute in R. discriminate.
  - destruct (CAM.promote _ _ _) as [st'|e] eqn:R.
    + exists st'. split; [reflexivity|]. apply H4; [|reflexivity].
      intros p [<-|[<-|[]]]; simpl; intros; discriminate.
    + exfalso. vm_compute in R. discriminate.
Defined.

(** ** The two validators *)

Lemma deficit_scan_no_deficit has_dro has_qio tb see log :
  existsb negative tb = false ->
  CAM.deficit_scan has_dro has_qio tb see log = (see, log).
Proof.
  revert see log. induction tb as [|[p b] tb IH]; intros see log; simpl;
    [reflexivity|].
  change (negative (p, b)) with (ltb b zero).
  destruct (ltb b zero); simpl; [discriminate | apply IH].
Qed.

(** X8.  The two validators agree.  On the same balances and agreement they
    return the same substantial-economic-effect flag, which is true exactly
    when a deficit restoration obligation or a qualified income offset is
    present or no balance is below zero, and the same deficit-restoration
    flag; the warning the standalone validator logs is the first of the
    deficit warnings the manager's validator logs. *)
Theorem X8_validators_agree
    (allocations balances : dict Decimal) (terms : Agreement) :
  let has_dro := has_deficit_restoration_obligation terms in
  let has_qio := has_qualified_income_offset terms in
  let check := CAM._validate_allocations_compliance allocations terms balances in
  let res := validate_substantial_economic_effect allocations balances terms in
  CAM.substantial_economic_effect (fst check) = substantial_economic_effect (fst res)
  /\ substantial_economic_effect (fst res)
     = has_dro || has_qio || negb (existsb negative balances)
  /\ CAM.deficit_restoration_obligation (fst check) = deficit_restoration (fst res)
  /\ snd res = firstn 1 (filter (fun w => match w with
                                         | WarnDeficit _ => true
                                         | _ => false
                                         end) (snd check)).
Proof.
  destruct terms as [has_dro has_qio wf]. cbv zeta.
  unfold CAM._validate_allocations_compliance, validate_substantial_economic_effect.
  cbn [has_deficit_restoration_obligation has_qualified_income_offset].
  destruct (has_dro || has_qio) eqn:P.
  - rewrite deficit_scan_protected, find_unprotected_deficit_protected by exact P.
    cbn. repeat split; reflexivity.
  - apply orb_false_elim in P. destruct P as [-> ->].
    rewrite deficit_scan_unprotected, find_unprotected_deficit_unprotected.
    cbn [fst snd negb andb orb app].
    split; [destruct (existsb negative balances); reflexivity|].
    split; [destruct (existsb negative balances); reflexivity|].
    split; [reflexivity|].
    cbn [filter]. destruct (filter negative balances) as [|[p b] rest];
      reflexivity.
Qed.

(** ** The capital account roll-forward *)

(** X9.  On whole-cent amounts within the working precision the
    roll-forward returns, to the cent, beginning + contributions -
    distributions + income - losses + other adjustments: no intermediate sum
    is rounded and the final rounding changes nothing. *)
Theorem X9_roll_forward_is_exact
    (beginning contributions distributions income losses other : Decimal) :
  money beginning -> money contributions -> money distributions ->
  money income -> money losses -> money other ->
  calculate_section_704b_balance beginning contributions distributions
    income losses other
  = Ok (mkDec (cents beginning + cents contributions - cents distributions
               + cents income - cents losses + cents other) (-2)).
Proof.
  intros [P1 L1] [P2 L2] [P3 L3] [P4 L4] [P5 L5] [P6 L6].
  assert (HL : 6 * money_limit < 10 ^ prec) by (vm_compute; reflexivity).
  unfold calculate_section_704b_balance.
  destruct (add_cents _ _ P1 P2) as [A1 E1]; [lia|].
  destruct (sub_cents _ _ A1 P3) as [A2 E2]; [rewrite E1; lia|].
  destruct (add_cents _ _ A2 P4) as [A3 E3]; [rewrite E2, E1; lia|].
  destruct (sub_cents _ _ A3 P5) as [A4 E4]; [rewrite E3, E2, E1; lia|].
  destruct (add_cents _ _ A4 P6) as [A5 E5]; [rewrite E4, E3, E2, E1; lia|].
  rewrite quantize_cents; [|assumption | rewrite E5, E4, E3, E2, E1; lia].
  rewrite E5, E4, E3, E2, E1. reflexivity.
Qed.

(** X9 on 1000.00 + 250.00 - 100.00 + 75.50 - 20.25 + 0. *)
Lemma X9_witness :
  calculate_section_704b_balance (mkDec 100000 (-2)) (mkDec 25000 (-2))
    (mkDec 10000 (-2)) (mkDec 7550 (-2)) (mkDec 2025 (-2)) zero
  = Ok (mkDec (cents (mkDec 100000 (-2)) + cents (mkDec 25000 (-2))
               - cents (mkDec 10000 (-2)) + cents (mkDec 7550 (-2))
               - cents (mkDec 2025 (-2)) + cents zero) (-2)).
Proof.
  assert (H1 : money (mkDec 100000 (-2))) by is_money.
  assert (H2 : money (mkDec 25000 (-2))) by is_money.
  assert (H3 : money (mkDec 10000 (-2))) by is_money.
  assert (H4 : money (mkDec 7550 (-2))) by is_money.
  assert (H5 : money (mkDec 2025 (-2))) by is_money.
  assert (H6 : money zero) by is_money.
  exact (X9_roll_forward_is_exact _ _ _ _ _ _ H1 H2 H3 H4 H5 H6).
Defined.

(** ** A true-up towards a net income of zero *)

Lemma fix_ctx_zero e : fix_ctx (mkDec 0 e) = mkDec 0 e.
Proof. apply fix_ctx_small. vm_compute. reflexivity. Qed.

Lemma div_zero_numerator a b :
  coef a = 0 -> coef b <> 0 -> div a b = Ok (mkDec 0 (dexp a - dexp b)).
Proof.
  intros Ha Hb. unfold div.
  destruct (Z.eqb_spec (coef b) 0); [contradiction|].
  rewrite Ha. cbn [Z.eqb]. now rewrite fix_ctx_zero.
Qed.

Lemma mul_zero_factor a f : coef f = 0 -> mul a f = mkDec 0 (dexp a + dexp f).
Proof. intros Hf. unfold mul. rewrite Hf, Z.mul_0_r. apply fix_ctx_zero. Qed.

Lemma quantize_zero mode d : coef d = 0 -> quantize mode d = Ok (mkDec 0 (-2)).
Proof. intros H. unfold quantize. now rewrite H. Qed.

Lemma update_all_zero_factor mode f (raw : dict Decimal) :
  coef f = 0 ->
  update_all (fun a => quantize mode (mul a f)) raw
  = Ok (map (fun kv => (fst kv, mkDec 0 (-2))) raw).
Proof.
  intros Hf. unfold update_all. induction raw as [|[k v] raw IH]; [reflexivity|].
  cbn [mapM map fst snd]. rewrite (mul_zero_factor v f Hf), quantize_zero by reflexivity.
  cbn [bind]. rewrite IH. reflexivity.
Qed.

Lemma eqb_zero_coef a : eqb a zero = true -> coef a = 0.
Proof.
  unfold eqb. rewrite compare_zero.
  destruct (Z.compare_spec (coef a) 0); try discriminate. auto.
Qed.

Lemma no_mismatch_between_zeros limit total net :
  0 < coef limit ->
  coef total = 0 -> coef net = 0 -> ltb limit (abs (sub total net)) = false.
Proof.
  intros Hl Ht Hn.
  assert (Hs : coef (abs (sub total net)) = 0).
  { unfold abs, sub, add, align, neg. cbn [coef dexp].
    rewrite Ht, Hn. cbn [Z.opp]. rewrite !Z.mul_0_l. cbn [Z.add].
    rewrite fix_ctx_zero. cbn [coef dexp]. change (Z.abs 0) with 0.
    rewrite ?fix_ctx_zero. reflexivity. }
  unfold ltb. rewrite compare_antisym.
  unfold compare, align. rewrite Hs, Z.mul_0_l.
  set (k := dexp limit - _).
  assert (0 < 10 ^ k) by (apply Z.pow_pos_nonneg; unfold k; lia).
  destruct (Z.compare_spec 0 (coef limit * 10 ^ k)); try reflexivity; nia.
Qed.

(** X10.  A net income of exactly zero wipes the allocations out: whenever
    the raw total is more than a cent away from it, both solvers rescale by
    0 / total and return 0.00 for every partner, with the warning. *)
Theorem X10_true_up_to_zero_net_income
    (partners : list Partner) (net_income : Decimal)
    (liquidation_proceeds current_balances target_balances : dict Decimal)
    (raw raw_m : dict Decimal) :
  coef net_income = 0 ->
  TaxCalculations.raw_allocations partners liquidation_proceeds current_balances []
    = Ok raw ->
  CAM.raw_allocations partners target_balances [] = Ok raw_m ->
  (ltb one_cent (abs (sub (sum (values raw)) net_income)) = true ->
   calculate_target_allocations partners net_income liquidation_proceeds
     current_balances
   = Ok (map (fun kv => (fst kv, mkDec 0 (-2))) raw,
         [WarnTotalMismatch (sum (values raw)) net_income]))
  /\
  (ltb CAM.precision (abs (sub (sum (values raw_m)) net_income)) = true ->
   CAM._calculate_required_allocations partners target_balances net_income
   = Ok (map (fun kv => (fst kv, mkDec 0 (-2))) raw_m,
         [WarnTotalMismatch (sum (values raw_m)) net_income])).
Proof.
  intros Hn Hraw Hraw_m.
  unfold calculate_target_allocations, CAM._calculate_required_allocations.
  rewrite Hraw, Hraw_m. cbn [bind].
  assert (Hc : 0 < coef one_cent) by reflexivity.
  split; intros Hm; rewrite Hm.
  - destruct (eqb (sum (values raw)) zero) eqn:E.
    + apply eqb_zero_coef in E.
      rewrite (no_mismatch_between_zeros one_cent _ _ Hc E Hn) in Hm. discriminate.
    + cbn [negb].
      rewrite (div_zero_numerator _ _ Hn (eqb_zero_false _ E)). cbn [bind].
      rewrite update_all_zero_factor by reflexivity. reflexivity.
  - destruct (eqb (sum (values raw_m)) zero) eqn:E.
    + apply eqb_zero_coef in E.
      rewrite (no_mismatch_between_zeros CAM.precision _ _ Hc E Hn) in Hm.
      discriminate.
    + cbn [negb].
      rewrite (div_zero_numerator _ _ Hn (eqb_zero_false _ E)). cbn [bind].
      rewrite update_all_zero_factor by reflexivity. reflexivity.
Qed.

(** X10 on three raw allocations of 1.00 and a net income of zero. *)
Lemma X10_witness :
  calculate_target_allocations three_equal_partners zero one_dollar_each []
  = Ok (map (fun kv => (fst kv, mkDec 0 (-2)))
            [("A", mkDec 100 (-2)); ("B", mkDec 100 (-2)); ("C", mkDec 100 (-2))],
        [WarnTotalMismatch
           (sum (values [("A", mkDec 100 (-2)); ("B", mkDec 100 (-2));
                         ("C", mkDec 100 (-2))])) zero]).
Proof.
  assert (H1 : TaxCalculations.raw_allocations three_equal_partners one_dollar_each
                 [] []
               = Ok [("A", mkDec 100 (-2)); ("B", mkDec 100 (-2)); ("C", mkDec 100 (-2))])
    by (vm_compute; reflexivity).
  assert (H2 : CAM.raw_allocations three_equal_partners one_dollar_each []
               = Ok [("A", mkDec 100 (-2)); ("B", mkDec 100 (-2)); ("C", mkDec 100 (-2))])
    by (vm_compute; reflexivity).
  assert (H3 : ltb one_cent
                 (abs (sub (sum (values [("A", mkDec 100 (-2)); ("B", mkDec 100 (-2));
                                         ("C", mkDec 100 (-2))])) zero)) = true)
    by (vm_compute; reflexivity).
  exact (proj1 (X10_true_up_to_zero_net_income three_equal_partners zero
                  one_dollar_each [] one_dollar_each _ _ eq_refl H1 H2) H3).
Defined.

(** ** What the allocation loops store *)

Lemma raw_allocations_spec partners lp cb : forall acc raw,
  TaxCalculations.raw_allocations partners lp cb acc = Ok raw ->
  (forall k v, get raw k = Some v ->
     get acc k = Some v \/
     (In k (map partner_id partners) /\
      quantize ROUND_HALF_UP (sub (get_default lp k zero) (get_default cb k zero))
      = Ok v))
  /\ (forall k v, get acc k = Some v -> exists v', get raw k = Some v').
Proof.
  induction partners as [|p ps IH]; intros acc raw; simpl.
  - intros E. inversion E; subst. split; [auto | eauto].
  - destruct (quantize ROUND_HALF_UP _) as [q|] eqn:Q; cbn [bind]; [|discriminate].
    intros E. destruct (IH _ _ E) as [I1 I2]. split.
    + intros k v Hget. destruct (I1 k v Hget) as [Hacc|[Hin Hq]].
      * destruct (String.eqb_spec (partner_id p) k) as [<-|Hne].
        -- rewrite get_set_same in Hacc. inversion Hacc; subst. right. auto.
        -- rewrite get_set_other in Hacc by assumption. auto.
      * right. auto.
    + intros k v Hget.
      destruct (String.eqb_spec (partner_id p) k) as [<-|Hne].
      * apply (I2 _ _ (get_set_same _ _ _)).
      * apply (I2 k v). rewrite get_set_other by assumption. exact Hget.
Qed.

Lemma raw_allocations_entry partners lp cb : forall acc raw p,
  TaxCalculations.raw_allocations partners lp cb acc = Ok raw ->
  In p partners ->
  exists v, get raw (partner_id p) = Some v.
Proof.
  induction partners as [|q ps IH]; intros acc raw p; simpl; [contradiction|].
  destruct (quantize ROUND_HALF_UP _) as [x|] eqn:Q; cbn [bind]; [|discriminate].
  intros E [->|Hin].
  - destruct (raw_allocations_spec _ _ _ _ _ E) as [_ I2].
    apply (I2 _ _ (get_set_same _ _ _)).
  - eapply IH; eassumption.
Qed.

(** X11.  When [calculate_target_allocations] logs no warning, no true-up
    took place: every partner has an entry, it is the liquidation proceeds
    less the current balance of that partner rounded half-up to the cent, a
    missing proceeds or balance entry counting as zero (so a partner missing
    from both gets 0.00), and no one else has an entry. *)
Theorem X11_allocations_without_true_up
    (partners : list Partner) (net_income : Decimal)
    (liquidation_proceeds current_balances allocations : dict Decimal) :
  calculate_target_allocations partners net_income liquidation_proceeds
    current_balances = Ok (allocations, []) ->
  (forall p, In p partners ->
     exists v, get allocations (partner_id p) = Some v /\
       quantize ROUND_HALF_UP
         (sub (get_default liquidation_proceeds (partner_id p) zero)
              (get_default current_balances (partner_id p) zero)) = Ok v)
  /\ (forall p, In p partners ->
      get liquidation_proceeds (partner_id p) = None ->
      get current_balances (partner_id p) = None ->
      get allocations (partner_id p) = Some (mkDec 0 (-2)))
  /\ (forall k v, get allocations k = Some v -> In k (map partner_id partners)).
Proof.
  unfold calculate_target_allocations.
  destruct (TaxCalculations.raw_allocations _ _ _ _) as [raw|] eqn:R; cbn [bind];
    [|discriminate].
  intros E.
  assert (Hraw : allocations = raw).
  { destruct (ltb one_cent _).
    - destruct (negb _).
      + destruct (div _ _); cbn [bind] in E; [|discriminate].
        destruct (update_all _ _); cbn [bind] in E; discriminate.
      + discriminate.
    - inversion E; reflexivity. }
  subst allocations. clear E.
  destruct (raw_allocations_spec _ _ _ _ _ R) as [S1 _].
  assert (H1 : forall p, In p partners ->
     exists v, get raw (partner_id p) = Some v /\
       quantize ROUND_HALF_UP
         (sub (get_default liquidation_proceeds (partner_id p) zero)
              (get_default current_balances (partner_id p) zero)) = Ok v).
  { intros p Hp. destruct (raw_allocations_entry _ _ _ _ _ p R Hp) as [v Hv].
    exists v. split; [exact Hv|].
    destruct (S1 _ _ Hv) as [Habs|[_ Hq]]; [discriminate | exact Hq]. }
  split; [exact H1|]. split.
  - intros p Hp Hl Hc. destruct (H1 p Hp) as (v & Hv & Hq).
    unfold get_default in Hq. rewrite Hl, Hc in Hq.
    vm_compute in Hq. inversion Hq; subst. exact Hv.
  - intros k v Hv. destruct (S1 _ _ Hv) as [Habs|[Hin _]]; [discriminate | exact Hin].
Qed.

(** X11 on one partner with proceeds of 100 and no current balance, and a
    net income of 100. *)
Lemma X11_witness :
  exists v, get [("A", mkDec 10000 (-2))] "A" = Some v /\
    quantize ROUND_HALF_UP
      (sub (get_default [("A", dollars 100)] "A" zero)
           (get_default ([] : dict Decimal) "A" zero)) = Ok v.
Proof.
  assert (H : calculate_target_allocations (sole_partner zero) (dollars 100)
                [("A", dollars 100)] [] = Ok ([("A", mkDec 10000 (-2))], []))
    by (vm_compute; reflexivity).
  exact (proj1 (X11_allocations_without_true_up _ _ _ _ _ H)
           (partner "A" "limited" zero (dollars 1) true false)
           (or_introl eq_refl)).
Defined.

Lemma target_balances_loop_spec partners dist : forall acc tb,
  CAM.target_balances_loop partners dist acc = Ok tb ->
  (forall k v, get tb k = Some v ->
     get acc k = Some v \/
     (In k (map partner_id partners) /\
      quantize ROUND_HALF_EVEN (get_default dist k zero) = Ok v))
  /\ (forall k v, get acc k = Some v -> exists v', get tb k = Some v').
Proof.
  induction partners as [|p ps IH]; intros acc tb; simpl.
  - intros E. inversion E; subst. split; [auto | eauto].
  - destruct (quantize ROUND_HALF_EVEN _) as [q|] eqn:Q; cbn [bind]; [|discriminate].
    intros E. destruct (IH _ _ E) as [I1 I2]. split.
    + intros k v Hget. destruct (I1 k v Hget) as [Hacc|[Hin Hq]].
      * destruct (String.eqb_spec (partner_id p) k) as [<-|Hne].
        -- rewrite get_set_same in Hacc. inversion Hacc; subst. right. auto.
        -- rewrite get_set_other in Hacc by assumption. auto.
      * right. auto.
    + intros k v Hget.
      destruct (String.eqb_spec (partner_id p) k) as [<-|Hne].
      * apply (I2 _ _ (get_set_same _ _ _)).
      * apply (I2 k v). rewrite get_set_other by assumption. exact Hget.
Qed.

Lemma target_balances_loop_entry partners dist : forall acc tb p,
  CAM.target_balances_loop partners dist acc = Ok tb ->
  In p partners ->
  exists v, get tb (partner_id p) = Some v.
Proof.
  induction partners as [|q ps IH]; intros acc tb p; simpl; [contradiction|].
  destruct (quantize ROUND_HALF_EVEN _) as [x|] eqn:Q; cbn [bind]; [|discriminate].
  intros E [->|Hin].
  - destruct (target_balances_loop_spec _ _ _ _ E) as [_ I2].
    apply (I2 _ _ (get_set_same _ _ _)).
  - eapply IH; eassumption.
Qed.

Lemma target_balances_loop_ok partners (dist : dict Decimal) : forall acc,
  penny_dict dist ->
  Forall (fun kv => Z.abs (snd kv) < 10 ^ prec) (cents_dict dist) ->
  exists tb, CAM.target_balances_loop partners dist acc = Ok tb.
Proof.
  intros acc Hp Hb. revert acc.
  induction partners as [|p ps IH]; intros acc; simpl; [eauto|].
  destruct (get_default_view dist (partner_id p) Hp) as [G1 G2].
  rewrite quantize_cents; [cbn [bind]; apply IH | exact G1 |].
  rewrite G2. apply (get_default_bounded (fun v => Z.abs v < 10 ^ prec));
    [exact Hb | vm_compute; reflexivity].
Qed.

(** X12.  The target balances are the liquidation distributions: when
    [_calculate_target_balances] returns, every partner has an entry, equal
    to that partner's distribution rounded to the cent (half-even, the
    context's mode), and no one else has one; on whole-cent distributions it
    does return and the entry is the distribution itself, written with two
    decimals. *)
Theorem X12_target_balances_are_distributions
    (partners : list Partner) (analysis : CAM.liquidation_analysis) :
  (forall tb, CAM._calculate_target_balances partners analysis = Ok tb ->
     (forall p, In p partners ->
        exists v, get tb (partner_id p) = Some v /\
          quantize ROUND_HALF_EVEN
            (get_default (CAM.partner_distributions analysis) (partner_id p) zero)
          = Ok v)
     /\ (forall k v, get tb k = Some v -> In k (map partner_id partners)))
  /\ (penny_dict (CAM.partner_distributions analysis) ->
      Forall (fun kv => Z.abs (snd kv) < 10 ^ prec)
             (cents_dict (CAM.partner_distributions analysis)) ->
      exists tb, CAM._calculate_target_balances partners analysis = Ok tb
        /\ forall p, In p partners ->
           get tb (partner_id p)
           = Some (mkDec (cents (get_default (CAM.partner_distributions analysis)
                                   (partner_id p) zero)) (-2))).
Proof.
  unfold CAM._calculate_target_balances.
  assert (H1 : forall tb,
    CAM.target_balances_loop partners (CAM.partner_distributions analysis) [] = Ok tb ->
    (forall p, In p partners ->
        exists v, get tb (partner_id p) = Some v /\
          quantize ROUND_HALF_EVEN
            (get_default (CAM.partner_distributions analysis) (partner_id p) zero)
          = Ok v)
     /\ (forall k v, get tb k = Some v -> In k (map partner_id partners))).
  { intros tb E. destruct (target_balances_loop_spec _ _ _ _ E) as [S1 _]. split.
    - intros p Hp. destruct (target_balances_loop_entry _ _ _ _ p E Hp) as [v Hv].
      exists v. split; [exact Hv|].
      destruct (S1 _ _ Hv) as [Habs|[_ Hq]]; [discriminate | exact Hq].
    - intros k v Hv. destruct (S1 _ _ Hv) as [Habs|[Hin _]];
        [discriminate | exact Hin]. }
  split; [exact H1|].
  intros Hp Hb.
  destruct (target_balances_loop_ok partners _ [] Hp Hb) as [tb E].
  exists tb. split; [exact E|].
  intros p Hin. destruct (proj1 (H1 tb E) p Hin) as (v & Hv & Hq).
  destruct (get_default_view _ (partner_id p) Hp) as [G1 G2].
  rewrite quantize_cents in Hq; [inversion Hq; subst; exact Hv | exact G1 |].
  rewrite G2. apply (get_default_bounded (fun v => Z.abs v < 10 ^ prec));
    [exact Hb | vm_compute; reflexivity].
Qed.

(** X12 on the distributions 600,000.00 and 400,000.00 of the scenario. *)
Lemma X12_witness :
  exists tb,
    CAM._calculate_target_balances scenario_partners
      {| CAM.total_proceeds := mkDec 100000000 (-2);
         CAM.partner_distributions :=
           [("A", mkDec 60000000 (-2)); ("B", mkDec 40000000 (-2))];
         CAM.waterfall_steps_processed := 1;
         CAM.remaining_proceeds := mkDec 0 (-2) |} = Ok tb
    /\ forall p, In p scenario_partners ->
       get tb (partner_id p)
       = Some (mkDec (cents (get_default
                               [("A", mkDec 60000000 (-2)); ("B", mkDec 40000000 (-2))]
                               (partner_id p) zero)) (-2)).
Proof.
  apply (proj2 (X12_target_balances_are_distributions scenario_partners
                  {| CAM.total_proceeds := mkDec 100000000 (-2);
                     CAM.partner_distributions :=
                       [("A", mkDec 60000000 (-2)); ("B", mkDec 40000000 (-2))];
                     CAM.waterfall_steps_processed := 1;
                     CAM.remaining_proceeds := mkDec 0 (-2) |})).
  - repeat constructor; vm_compute; discriminate.
  - repeat constructor; vm_compute; reflexivity.
Defined.

(** ** The whole calculation on a return-of-capital liquidation *)

Lemma target_balances_loop_all (P : Decimal -> Prop) partners dist :
  (forall k q, quantize ROUND_HALF_EVEN (get_default dist k zero) = Ok q -> P q) ->
  forall acc tb,
  Forall (fun kv => P (snd kv)) acc ->
  CAM.target_balances_loop partners dist acc = Ok tb ->
  Forall (fun kv => P (snd kv)) tb.
Proof.
  intros HP. induction partners as [|p ps IH]; intros acc tb Hacc; simpl.
  - intros E. inversion E; subst. exact Hacc.
  - destruct (quantize ROUND_HALF_EVEN _) as [q|] eqn:Q; cbn [bind]; [|discriminate].
    apply IH. apply (set_all P); [exact Hacc | exact (HP _ _ Q)].
Qed.

Lemma no_negative_entry (d : dict Decimal) :
  Forall (fun kv => ltb (snd kv) zero = false) d -> existsb negative d = false.
Proof.
  induction 1 as [|[k v] d Hv Hd IH]; [reflexivity|].
  cbn [existsb]. change (negative (k, v)) with (ltb v zero).
  cbn [snd] in Hv. rewrite Hv. exact IH.
Qed.

(** X13.  A liquidation modelled through return-of-capital steps only, on
    whole-cent proceeds and capital contributions that are not negative,
    never yields a deficit: the liquidation model and the target balances
    are computed, no target balance is below zero, and whenever
    [calculate_target_allocations] returns a result it carries these target
    balances and reports substantial economic effect as true, with or
    without a deficit restoration obligation. *)
Theorem X13_return_of_capital_liquidation_has_no_deficit
    (data : CAM.calculation_data) :
  money (CAM.total_fair_market_value data) ->
  0 <= cents (CAM.total_fair_market_value data) ->
  Forall (fun p => money (capital_contributed p)
                   /\ 0 <= cents (capital_contributed p)) (CAM.partners data) ->
  Forall (fun s => step_type s = "return_of_capital"%string)
         (distribution_waterfall (CAM.agreement_terms data)) ->
  exists analysis targets,
    CAM._model_liquidation_distribution (CAM.partners data)
      (CAM.agreement_terms data) (CAM.total_fair_market_value data) = Ok analysis
    /\ CAM._calculate_target_balances (CAM.partners data) analysis = Ok targets
    /\ existsb negative targets = false
    /\ forall out log,
       CAM.calculate_target_allocations data = Ok (out, log) ->
       CAM.target_balances out = targets
       /\ CAM.substantial_economic_effect (CAM.compliance out) = true.
Proof.
  intros [Hp Hl] Hpos Hcaps Hsteps.
  set (total := CAM.total_fair_market_value data) in *.
  set (ps := CAM.partners data) in *.
  assert (HT : cents total <= money_limit) by lia.
  destruct (manager_run_waterfall_conserving (cents total) (cents total) ps
              (distribution_waterfall (CAM.agreement_terms data))
              (initial_state total ps) HT Hcaps Hsteps
              (initial_state_conserving _ _ Hp Hpos)) as (st & Hrun & Hc).
  destruct (conserving_facts _ _ _ Hc HT) as ([Pr Pd] & Hnn & Htot & _).
  destruct (nonneg_le_total _ Hnn) as [_ Tle].
  pose proof money_limit_lt as HL.
  assert (HM : 0 < money_limit) by (vm_compute; reflexivity).
  assert (Hb : Forall (fun kv => Z.abs (snd kv) < 10 ^ prec) (cents_dict (proceeds st))).
  { rewrite Forall_forall in *. intros kv Hin.
    specialize (Hnn kv Hin). specialize (Tle kv Hin). cbv beta in *. lia. }
  assert (Hmodel : CAM._model_liquidation_distribution ps (CAM.agreement_terms data) total
                   = Ok {| CAM.total_proceeds := total;
                           CAM.partner_distributions := proceeds st;
                           CAM.waterfall_steps_processed :=
                             List.length (distribution_waterfall (CAM.agreement_terms data));
                           CAM.remaining_proceeds := remaining st |}).
  { unfold CAM._model_liquidation_distribution. unfold initial_state in Hrun.
    rewrite Hrun. reflexivity. }
  destruct (target_balances_loop_ok ps (proceeds st) [] Pd Hb) as [tb Htb].
  assert (Hneg : existsb negative tb = false).
  { apply no_negative_entry.
    apply (target_balances_loop_all (fun q => ltb q zero = false) ps (proceeds st))
      with (acc := []); [|constructor | exact Htb].
    intros k q Hq.
    destruct (get_default_view (proceeds st) k Pd) as [G1 G2].
    assert (G3 : 0 <= get_default (cents_dict (proceeds st)) k 0 < 10 ^ prec).
    { apply (get_default_bounded (fun v => 0 <= v < 10 ^ prec)).
      - rewrite Forall_forall in *. intros kv Hin.
        specialize (Hnn kv Hin). specialize (Hb kv Hin). cbv beta in *. lia.
      - lia. }
    rewrite quantize_cents in Hq; [|exact G1 | rewrite G2; lia].
    inversion Hq; subst. apply ltb_zero_nonneg. cbn [coef]. rewrite G2. lia. }
  eexists. exists tb. split; [exact Hmodel|]. split; [exact Htb|].
  split; [exact Hneg|].
  intros out log. unfold CAM.calculate_target_allocations.
  fold ps. fold total. rewrite Hmodel. cbn [bind].
  unfold CAM._calculate_target_balances in Htb |- *.
  cbn [CAM.partner_distributions] in Htb |- *. rewrite Htb. cbn [bind].
  destruct (CAM._calculate_required_allocations ps tb (CAM.net_income data))
    as [required|]; cbn [bind]; [|discriminate].
  intros E. inversion E; subst. cbn [CAM.target_balances CAM.compliance].
  split; [reflexivity|].
  unfold CAM._validate_allocations_compliance.
  rewrite deficit_scan_no_deficit by exact Hneg. reflexivity.
Qed.

(** X13 on the specification's scenario, with a net income of
    1,000,000.00 and no deficit restoration obligation. *)
Lemma X13_witness :
  exists analysis targets,
    CAM._model_liquidation_distribution scenario_partners
      (mkAgreement false false [step "return_of_capital"]) (mkDec 100000000 (-2))
    = Ok analysis
    /\ CAM._calculate_target_balances scenario_partners analysis = Ok targets
    /\ existsb negative targets = false
    /\ forall out log,
       CAM.calculate_target_allocations
         (CAM.mkCalculation scenario_partners (mkDec 100000000 (-2))
            (mkAgreement false false [step "return_of_capital"])
            (mkDec 100000000 (-2))) = Ok (out, log) ->
       CAM.target_balances out = targets
       /\ CAM.substantial_economic_effect (CAM.compliance out) = true.
Proof.
  assert (H1 : money (mkDec 100000000 (-2))) by is_money.
  assert (H2 : 0 <= cents (mkDec 100000000 (-2))) by (vm_compute; discriminate).
  assert (H3 : Forall (fun s => step_type s = "return_of_capital"%string)
                      [step "return_of_capital"]) by (repeat constructor).
  exact (X13_return_of_capital_liquidation_has_no_deficit
           (CAM.mkCalculation scenario_partners (mkDec 100000000 (-2))
              (mkAgreement false false [step "return_of_capital"])
              (mkDec 100000000 (-2)))
           H1 H2 scenario_partners_money H3).
Defined.

(** The scenario does run to a result. *)
Example scenario_target_allocations :
  CAM.calculate_target_allocations
    (CAM.mkCalculation scenario_partners (mkDec 100000000 (-2))
       (mkAgreement false false [step "return_of_capital"]) (mkDec 100000000 (-2)))
  = Ok ({| CAM.target_balances :=
             [("A", mkDec 60000000 (-2)); ("B", mkDec 40000000 (-2))];
           CAM.required_allocations :=
             [("A", mkDec 60000000 (-2)); ("B", mkDec 40000000 (-2))];
           CAM.compliance :=
             {| CAM.substantial_economic_effect := true;
                CAM.capital_account_maintenance := true;
                CAM.liquidation_consistency := true;
                CAM.deficit_restoration_obligation := false |};
           CAM.calculation_method := "target_capital_account";
           CAM.waterfall_analysis :=
             {| CAM.total_proceeds := mkDec 100000000 (-2);
                CAM.partner_distributions :=
                  [("A", mkDec 60000000 (-2)); ("B", mkDec 40000000 (-2))];
                CAM.waterfall_steps_processed := 1;
                CAM.remaining_proceeds := mkDec 0 (-2) |} |},
        [WarnNoProtection]).
Proof. vm_compute. reflexivity. Qed.

(** ** Return of capital makes the partners whole before anything is left *)

Lemma cents_iadd_get_ge m k k' x :
  0 <= x -> get_default m k' 0 <= get_default (Cents.iadd m k x) k' 0.
Proof.
  intros Hx. unfold get_default. induction m as [|[k0 v] m IH]; simpl; [lia|].
  destruct (String.eqb_spec k0 k) as [->|Hk]; simpl.
  - destruct (String.eqb k k'); lia.
  - destruct (String.eqb k0 k'); [lia | exact IH].
Qed.

Lemma cents_return_of_capital_grows k partners : forall m r,
  get_default m k 0 <= get_default (fst (Cents.return_of_capital partners m r)) k 0.
Proof.
  induction partners as [|p ps IH]; intros m r; simpl; [lia|].
  destruct (Z.leb_spec r 0); [simpl; lia|].
  destruct (Z.ltb_spec 0 (Cents.capital p - get_default m (partner_id p) 0)).
  - etransitivity; [|apply IH]. apply cents_iadd_get_ge. lia.
  - apply IH.
Qed.

Lemma cents_return_of_capital_pool_le partners : forall m r,
  snd (Cents.return_of_capital partners m r) <= r.
Proof.
  induction partners as [|p ps IH]; intros m r; simpl; [lia|].
  destruct (Z.leb_spec r 0); [simpl; lia|].
  destruct (Z.ltb_spec 0 (Cents.capital p - get_default m (partner_id p) 0)).
  - etransitivity; [apply IH|]. lia.
  - apply IH.
Qed.

Lemma cents_return_of_capital_made_whole partners : forall m r,
  0 < snd (Cents.return_of_capital partners m r) ->
  Forall (fun p => In (partner_id p) (keys m)) partners ->
  Forall (fun p => Cents.capital p
                   <= get_default (fst (Cents.return_of_capital partners m r))
                        (partner_id p) 0) partners.
Proof.
  induction partners as [|p ps IH]; intros m r Hpos Hk; [constructor|].
  inversion Hk as [|? ? Hin Hrest]; subst.
  cbn [Cents.return_of_capital] in *.
  destruct (Z.leb_spec r 0); [simpl in Hpos; lia|].
  set (x := get_default m (partner_id p) 0) in *.
  destruct (Z.ltb_spec 0 (Cents.capital p - x)) as [Hu|Hu].
  - set (d := Z.min (Cents.capital p - x) r) in *.
    pose proof (cents_return_of_capital_pool_le ps
                  (Cents.iadd m (partner_id p) d) (r - d)) as Hle.
    assert (Hd : d = Cents.capital p - x) by (unfold d in *; lia).
    constructor.
    + etransitivity; [|apply cents_return_of_capital_grows].
      rewrite cents_iadd_get_same by assumption. fold x. lia.
    + apply IH; [exact Hpos|].
      eapply Forall_impl; [|exact Hrest]. cbv beta. intros q Hq.
      now rewrite cents_iadd_keys.
  - constructor.
    + etransitivity; [|apply cents_return_of_capital_grows]. fold x. lia.
    + apply IH; assumption.
Qed.

Lemma cents_manager_return_of_capital_grows k partners : forall m r,
  0 <= r -> Forall (fun p => 0 <= Cents.capital p) partners ->
  get_default m k 0
  <= get_default (fst (Cents.manager_return_of_capital partners m r)) k 0.
Proof.
  induction partners as [|p ps IH]; intros m r Hr Hc; simpl; [lia|].
  inversion Hc; subst.
  destruct (Z.leb_spec (r - Z.min (Cents.capital p) r) 0); cbn [fst].
  - apply cents_iadd_get_ge. lia.
  - etransitivity; [|apply IH; [lia | assumption]]. apply cents_iadd_get_ge. lia.
Qed.

Lemma cents_manager_return_of_capital_made_whole partners : forall m r,
  0 <= r ->
  0 < snd (Cents.manager_return_of_capital partners m r) ->
  Forall (fun p => In (partner_id p) (keys m) /\ 0 <= Cents.capital p
                   /\ 0 <= get_default m (partner_id p) 0) partners ->
  Forall (fun p => Cents.capital p
                   <= get_default (fst (Cents.manager_return_of_capital partners m r))
                        (partner_id p) 0) partners.
Proof.
  induction partners as [|p ps IH]; intros m r Hr Hpos Hk; [constructor|].
  inversion Hk as [|? ? (Hin & Hc & Hx) Hrest]; subst.
  cbn [Cents.manager_return_of_capital] in *.
  set (d := Z.min (Cents.capital p) r) in *.
  assert (Hcaps : Forall (fun q => 0 <= Cents.capital q) ps).
  { eapply Forall_impl; [|exact Hrest]. cbv beta. tauto. }
  destruct (Z.leb_spec (r - d) 0) as [Hz|Hz]; [cbn [snd] in Hpos; lia|].
  assert (Hd : d = Cents.capital p) by (unfold d in *; lia).
  constructor.
  - etransitivity;
      [|apply cents_manager_return_of_capital_grows; [lia | exact Hcaps]].
    rewrite cents_iadd_get_same by assumption. lia.
  - apply IH; [lia | exact Hpos|].
    eapply Forall_impl; [|exact Hrest]. cbv beta. intros q (Hq1 & Hq2 & Hq3).
    rewrite cents_iadd_keys. split; [assumption|]. split; [assumption|].
    etransitivity; [exact Hq3|]. apply cents_iadd_get_ge. unfold d. lia.
Qed.

(** X14.  Return of capital comes first: if anything is left in the pool
    after a return_of_capital step (run from a state in whole cents, not
    negative, with every partner present), then every partner's running
    total has reached at least the capital that partner contributed.  This
    holds for the step of either waterfall. *)
Theorem X14_pool_left_means_partners_made_whole
    (T M : Z) (partners : list Partner) (st : wstate) :
  M <= money_limit ->
  conserving T M partners st ->
  Forall (fun p => money (capital_contributed p)
                   /\ 0 <= cents (capital_contributed p)) partners ->
  (ltb zero (remaining (return_of_capital partners st)) = true ->
   forall p, In p partners ->
     leb (capital_contributed p)
         (get_default (proceeds (return_of_capital partners st)) (partner_id p) zero)
     = true)
  /\
  (ltb zero (remaining (CAM.return_of_capital partners st)) = true ->
   forall p, In p partners ->
     leb (capital_contributed p)
         (get_default (proceeds (CAM.return_of_capital partners st)) (partner_id p) zero)
     = true).
Proof.
  intros HM Hc Hcaps.
  assert (Hmoney : Forall (fun q => money (capital_contributed q)) partners).
  { eapply Forall_impl; [|exact Hcaps]. cbv beta. tauto. }
  pose proof Hc as (Hp & Hb & _ & Hk).
  assert (Hkeys : Forall (fun p => In (partner_id p) (keys (cents_dict (proceeds st))))
                         partners).
  { eapply Forall_impl; [|exact Hk]. cbv beta. intros q Hq.
    now rewrite cents_dict_keys. }
  split.
  - intros Hleft p Hin.
    pose proof (return_of_capital_conserving T M partners st HM Hmoney Hc)
      as ([Pr Pd] & B1 & _ & _).
    destruct (return_of_capital_view partners st M HM Hmoney Hp Hb) as [_ V].
    rewrite (ltb_cents _ _ penny_zero Pr), cents_zero in Hleft.
    apply Z.ltb_lt in Hleft.
    pose proof (f_equal fst V) as Vd. pose proof (f_equal snd V) as Vr.
    cbn [view fst snd] in Vd, Vr. rewrite Vr in Hleft.
    pose proof (cents_return_of_capital_made_whole partners _ _ Hleft Hkeys) as W.
    rewrite Forall_forall in W, Hcaps. specialize (W p Hin).
    destruct (get_default_view _ (partner_id p) Pd) as [G1 G2].
    rewrite (leb_cents _ _ (proj1 (proj1 (Hcaps p Hin))) G1), G2, Vd.
    apply Z.leb_le. exact W.
  - intros Hleft p Hin.
    pose proof (manager_return_of_capital_conserving T M partners st HM Hcaps Hc)
      as ([Pr Pd] & B1 & _ & _).
    destruct (manager_return_of_capital_view partners st M HM Hcaps Hp Hb) as [_ V].
    rewrite (ltb_cents _ _ penny_zero Pr), cents_zero in Hleft.
    apply Z.ltb_lt in Hleft.
    pose proof (f_equal fst V) as Vd. pose proof (f_equal snd V) as Vr.
    cbn [view fst snd] in Vd, Vr. rewrite Vr in Hleft.
    destruct Hb as [[Hr0 _] Hall]. cbn [view fst snd] in Hr0, Hall.
    assert (Hpre : Forall (fun p => In (partner_id p) (keys (cents_dict (proceeds st)))
                     /\ 0 <= Cents.capital p
                     /\ 0 <= get_default (cents_dict (proceeds st)) (partner_id p) 0)
                   partners).
    { rewrite Forall_forall in *. intros q Hq. split; [apply Hkeys, Hq|].
      split; [apply Hcaps, Hq|].
      apply (get_default_bounded (fun v => 0 <= v)); [|lia].
      apply Forall_forall. intros kv Hkv. apply (Hall kv Hkv). }
    pose proof (cents_manager_return_of_capital_made_whole partners _ _ Hr0 Hleft Hpre)
      as W.
    rewrite Forall_forall in W, Hcaps. specialize (W p Hin).
    destruct (get_default_view _ (partner_id p) Pd) as [G1 G2].
    rewrite (leb_cents _ _ (proj1 (proj1 (Hcaps p Hin))) G1), G2, Vd.
    apply Z.leb_le. exact W.
Qed.

(** X14 on a pool of 1,000,000.01 and contributions of 600,000.00 and
    400,000.00: a cent is left and partner A has been returned the whole
    contribution. *)
Lemma X14_witness :
  leb (mkDec 60000000 (-2))
      (get_default
         (proceeds (return_of_capital scenario_partners
                      (initial_state (mkDec 100000001 (-2)) scenario_partners)))
         "A" zero) = true.
Proof.
  assert (H0 : cents (mkDec 100000001 (-2)) <= money_limit)
    by (vm_compute; discriminate).
  assert (H1 : conserving (cents (mkDec 100000001 (-2))) (cents (mkDec 100000001 (-2)))
                 scenario_partners
                 (initial_state (mkDec 100000001 (-2)) scenario_partners)).
  { apply initial_state_conserving; vm_compute; discriminate. }
  assert (H2 : ltb zero (remaining (return_of_capital scenario_partners
                           (initial_state (mkDec 100000001 (-2)) scenario_partners)))
               = true)
    by (vm_compute; reflexivity).
  exact (proj1 (X14_pool_left_means_partners_made_whole _ _ _ _ H0 H1
                  scenario_partners_money) H2
           (partner "A" "limited" (mkDec 60000000 (-2)) (mkDec 60 (-2)) true false)
           (or_introl eq_refl)).
Defined.
